(** * HHL example (examples/hhl.py): gate synthesis and adaptive sampling

    A shallow embedding of the classes of [examples/hhl.py] and the
    properties of their circuit synthesis and sampling loops.

    Python floats are idealised as real numbers ([R]); the statistics of
    [print_results] only need rational arithmetic and use [Q] extended
    with a NaN.  Python exceptions are values of [exn]. *)

From Stdlib Require Import ZArith List Lia Reals Lra QArith String.
From Stdlib Require Lqa.
From stdpp Require Import base option list.
Import ListNotations.

Open Scope Z_scope.

(** ** Python prelude *)

Inductive exn := ValueError | ZeroDivisionError | TypeError.

Inductive result (A : Type) :=
| Ok (a : A)
| Raise (e : exn).
Arguments Ok {A} a.
Arguments Raise {A} e.

#[global] Instance result_ret : MRet result := fun A a => Ok a.
#[global] Instance result_bind : MBind result :=
  fun A B f r => match r with Ok a => f a | Raise e => Raise e end.

(** A Python number: [2 ** e] is an [int] for [e >= 0] and a [float]
    otherwise. *)
Inductive pynum :=
| PyInt (z : Z)
| PyFloat (r : R).

Definition to_R (n : pynum) : R :=
  match n with PyInt z => IZR z | PyFloat r => r end.

Definition pow2 (e : Z) : pynum :=
  if 0 <=? e then PyInt (2 ^ e) else PyFloat (/ IZR (2 ^ (- e))).

(** [range(n)] and [range(a, b)]. *)
Definition range (n : Z) : list Z := map Z.of_nat (seq 0 (Z.to_nat n)).
Definition range2 (a b : Z) : list Z := map (fun i => a + i) (range (b - a)).

(** [math.asin]: a domain error outside [-1, 1]. *)
Definition math_asin (x : R) : result R :=
  if Rle_dec (-1) x then
    if Rle_dec x 1 then Ok (asin x) else Raise ValueError
  else Raise ValueError.

(** Float division. *)
Definition py_div (x y : R) : result R :=
  if Req_dec_T y 0 then Raise ZeroDivisionError else Ok (x / y)%R.

(** [l[-2::-1]]: from the last-but-one element down to the first. *)
Definition slice_from_m2_rev {A} (l : list A) : list A := rev (removelast l).

(** ** numpy prelude *)

Definition Cplx : Type := R * R.
Definition Matrix : Type := list (list Cplx).

Definition Cconj (z : Cplx) : Cplx := (fst z, (- snd z)%R).
Definition Cmul (a b : Cplx) : Cplx :=
  ((fst a * fst b - snd a * snd b)%R, (fst a * snd b + snd a * fst b)%R).

Definition np_conj (v : list Cplx) : list Cplx := map Cconj v.
Definition np_outer (u v : list Cplx) : Matrix :=
  map (fun a => map (fun b => Cmul a b) v) u.

(** [vs.T] *)
Fixpoint np_transpose (m : Matrix) : Matrix :=
  match m with
  | [] => []
  | r :: rs =>
      match rs with
      | [] => map (fun x => [x]) r
      | _ => zip_with cons r (np_transpose rs)
      end
  end.

(** [zip(a, b)] *)
Definition zip {A B} (a : list A) (b : list B) : list (A * B) := combine a b.

(** ** cirq data model *)

Inductive Qubit := LineQubit (x : Z).

(** The state of a [HamiltonianSimulation] object. *)
Record HamiltonianSimulation_obj := {
  hs_exponent : R;
  hs_A : Matrix;
  hs_t : R;
  hs_eigen_components : list (R * Matrix)
}.

(** The state of an [EigenRotation] object. *)
Record EigenRotation_obj := {
  er_num_qubits : Z;
  er_C : R;
  er_t : R;
  er_N : pynum
}.

(** A gate parameter: a number or a [sympy.Symbol]. *)
Inductive Param :=
| Const (q : Q)
| Symbol (name : string).

(** The closed set of gates the example uses. *)
Inductive Gate :=
| cirq_H
| cirq_X
| cirq_Z
| cirq_rx (rads : R)
| cirq_ry (rads : R)
| cirq_rz (rads : R)
| ControlledGate (sub_gate : Gate) (num_controls : Z)
| QuantumFourierTransformGate (n : nat) (without_reverse : bool)
| PhasedXPowGate (exponent phase_exponent : Param)
| MeasurementGate (key : string)
| PhaseEstimationGate (num_qubits : Z) (U : Gate)
| PhaseKickbackGate (num_qubits : Z) (U : Gate)
| HamiltonianSimulationGate (self : HamiltonianSimulation_obj)
| EigenRotationGate (self : EigenRotation_obj)
| InverseGate (g : Gate).

(** A gate applied to qubits. *)
Inductive Operation := GateOperation (gate : Gate) (qubits : list Qubit).

(** The application of a gate to qubits.  cirq refuses, with a ValueError, to apply a gate to
    a number of qubits that is not its own or to the same qubit twice,
    and to control a gate a negative number of times; here the operation
    is built whatever the qubits are, and [well_formed] below says when
    cirq accepts it. *)
Definition on (g : Gate) (qubits : list Qubit) : Operation := GateOperation g qubits.
Definition on_each (g : Gate) (qubits : list Qubit) : list Operation :=
  map (fun q => GateOperation g [q]) qubits.
Definition cirq_measure (q : Qubit) (key : string) : Operation :=
  GateOperation (MeasurementGate key) [q].

Definition op_gate (op : Operation) : Gate := let 'GateOperation g _ := op in g.
Definition op_qubits (op : Operation) : list Qubit := let 'GateOperation _ qs := op in qs.

Definition is_measurement_gate (g : Gate) : bool :=
  match g with MeasurementGate _ => true | _ => false end.

Definition is_measurement (op : Operation) : bool :=
  is_measurement_gate (op_gate op).

(** Modelled from the spec: [cirq.Circuit], whose class lives in the
    cirq package and not in the example.  A CircuitDescription is an
    ordered sequence of gate applications, purely declarative, composed
    by concatenation and by inversion, which reverses the order of the
    operations and inverts each one. *)
Definition Circuit : Type := list Operation.

(** Modelled from the spec: [g ** -1] on a gate, kept symbolic; inverting
    twice gives the gate back (exactly reversible). *)
Definition gate_inverse (g : Gate) : Gate :=
  match g with
  | InverseGate g' => g'
  | _ => InverseGate g
  end.

(** Modelled from the spec: [op ** -1], the operation of the inverse gate
    on the same qubits. *)
Definition op_inverse (op : Operation) : Operation :=
  let 'GateOperation g qs := op in GateOperation (gate_inverse g) qs.

(** Modelled from the spec: the inverse of a sequence of operations. *)
Definition circuit_inverse (c : Circuit) : Circuit := rev (map op_inverse c).

(** The number of control lines of a gate and the gate they control. *)
Fixpoint control_count (g : Gate) : Z :=
  match g with
  | ControlledGate sub n => n + control_count sub
  | _ => 0
  end.

Fixpoint controlled_target (g : Gate) : Gate :=
  match g with
  | ControlledGate sub _ => controlled_target sub
  | _ => g
  end.

Definition is_ry (g : Gate) : bool :=
  match g with cirq_ry _ => true | _ => false end.

(** ** class EigenRotation *)

Module EigenRotation.

Definition __init__ (num_qubits : Z) (C t : R) : EigenRotation_obj :=
  {| er_num_qubits := num_qubits;
     er_C := C;
     er_t := t;
     er_N := pow2 (num_qubits - 1) |}.

Definition num_qubits (self : EigenRotation_obj) : Z := er_num_qubits self.

(** Floats are taken as real numbers: the rounding of the quotient,
    which decides at the very edge of the domain of the arcsine, and the
    OverflowError of Python for an [N] beyond the range of floats are
    not represented. *)
Definition _ancilla_rotation (self : EigenRotation_obj) (k : Z) : result Gate :=
  let k := if k =? 0 then er_N self else PyInt k in
  x ← py_div (er_C self * to_R (er_N self) * er_t self)%R (2 * PI * to_R k)%R;
  a ← math_asin x;
  let theta := (2 * a)%R in
  Ok (cirq_ry theta).

(** The loop over the register qubits of one value [k]: the X gates it
    yields and the controlled gate it builds. *)
Fixpoint place_controls (qs : list Qubit) (xor : Z) (kGate : Gate)
  : list Operation * Gate :=
  match qs with
  | [] => ([], kGate)
  | q :: qs' =>
      let x := if xor mod 2 =? 1 then [on cirq_X [q]] else [] in
      let xor := Z.shiftr xor 1 in
      let kGate := ControlledGate kGate 1 in
      let '(ops, g) := place_controls qs' xor kGate in
      (x ++ ops, g)
  end.

(** The body of [for k in range(self.N)]. *)
Definition block (self : EigenRotation_obj) (qubits : list Qubit) (k : Z)
  : result (list Operation) :=
  kGate ← _ancilla_rotation self k;
  let xor := Z.lxor k (k - 1) in
  let '(xs, kGate) := place_controls (slice_from_m2_rev qubits) xor kGate in
  Ok (xs ++ [on kGate qubits]).

(** A generator loop, exhausted: the operations yielded, or the
    exception that ended it. *)
Fixpoint for_yield {A B} (xs : list A) (body : A → result (list B))
  : result (list B) :=
  match xs with
  | [] => Ok []
  | x :: xs' =>
      ys ← body x;
      zs ← for_yield xs' body;
      Ok (ys ++ zs)
  end.

Definition _decompose_ (self : EigenRotation_obj) (qubits : list Qubit)
  : result (list Operation) :=
  match er_N self with
  | PyInt n => for_yield (range n) (block self qubits)
  | PyFloat _ => Raise TypeError
  end.

End EigenRotation.

(** ** The world the example runs in *)

(** One shot of the execution engine: the bit measured under key ['a']
    and the bit measured under key ['m']. *)
Record Shot := { shot_a : Z; shot_m : Z }.

(** [result.measurements], one row per repetition. *)
Definition RunResult : Type := list Shot.

(** A mapping from parameter names to values. *)
Definition ParamResolver : Type := list (string * Q).

(** A call of the execution engine: its arguments and its answer, one
    result per parameter resolver. *)
Record EngineCall := {
  call_circuit : Circuit;
  call_params : list ParamResolver;
  call_repetitions : Z;
  call_results : list RunResult
}.

(** The collaborators outside the example, as arbitrary functions: the
    eigendecomposition primitive, the random source and the simulator.
    The [nat] argument is the number of earlier calls, so that two calls
    with the same arguments may answer differently. *)
Record External := {
  np_linalg_eigh : Matrix → list R * Matrix;
  random_randint : nat → Z → Z → Z;
  simulator_run : nat → Circuit → ParamResolver → Z → RunResult;
  simulator_run_sweep : nat → Circuit → list ParamResolver → Z → list RunResult
}.

(** The store of [cirq.Circuit] objects (an address is an index of
    [heap]) and the log of the calls made to the collaborators. *)
Record World := {
  ext : External;
  heap : list Circuit;
  eigh_calls : list Matrix;
  randint_calls : nat;
  engine_calls : list EngineCall
}.

(** The address of a circuit. *)
Abbreviation CircuitRef := nat (only parsing).

(** A computation that reads and changes the world.  It always returns:
    the exceptions cirq raises when it refuses an operation are not
    represented. *)
Definition M (A : Type) : Type := World → A * World.

#[global] Instance M_ret : MRet M := fun A a w => (a, w).
#[global] Instance M_bind : MBind M :=
  fun A B f m w => let '(a, w') := m w in f a w'.

Definition set_heap (h : list Circuit) (w : World) : World :=
  {| ext := ext w; heap := h; eigh_calls := eigh_calls w;
     randint_calls := randint_calls w; engine_calls := engine_calls w |}.

(** Modelled from the spec: [cirq.Circuit()], a new object that holds the
    empty sequence. *)
Definition new_circuit : M CircuitRef :=
  fun w => (length (heap w), set_heap (heap w ++ [[]]) w).

(** The operations of the circuit at an address. *)
Definition contents (w : World) (c : CircuitRef) : Circuit :=
  default [] (heap w !! c).

(** Modelled from the spec: [c.append(ops)], which adds [ops] at the end
    of the sequence of the object [c], in place. *)
Definition circuit_append (c : CircuitRef) (ops : list Operation) : M unit :=
  fun w => (tt, set_heap (<[c := contents w c ++ ops]> (heap w)) w).

(** Modelled from the spec: [c += other], concatenation in place;
    [other] is only read. *)
Definition circuit_iadd (c other : CircuitRef) : M unit :=
  fun w => circuit_append c (contents w other) w.

Definition log_eigh (A : Matrix) (w : World) : World :=
  {| ext := ext w; heap := heap w; eigh_calls := eigh_calls w ++ [A];
     randint_calls := randint_calls w; engine_calls := engine_calls w |}.

(** [np.linalg.eigh(A)] *)
Definition eigh (A : Matrix) : M (list R * Matrix) :=
  fun w => (np_linalg_eigh (ext w) A, log_eigh A w).

Definition log_randint (w : World) : World :=
  {| ext := ext w; heap := heap w; eigh_calls := eigh_calls w;
     randint_calls := S (randint_calls w); engine_calls := engine_calls w |}.

(** [random.randint(a, b)] *)
Definition randint (a b : Z) : M Z :=
  fun w => (random_randint (ext w) (randint_calls w) a b, log_randint w).

Definition log_engine (e : EngineCall) (w : World) : World :=
  {| ext := ext w; heap := heap w; eigh_calls := eigh_calls w;
     randint_calls := randint_calls w; engine_calls := engine_calls w ++ [e] |}.

(** [simulator.run(circuit, resolver, repetitions)] *)
Definition run (c : CircuitRef) (resolver : ParamResolver) (repetitions : Z)
  : M RunResult :=
  fun w =>
    let result :=
      simulator_run (ext w) (length (engine_calls w)) (contents w c) resolver
        repetitions in
    (result,
     log_engine {| call_circuit := contents w c; call_params := [resolver];
                   call_repetitions := repetitions; call_results := [result] |} w).

(** [simulator.run_sweep(circuit, params, repetitions=...)] *)
Definition run_sweep (c : CircuitRef) (params : list ParamResolver) (repetitions : Z)
  : M (list RunResult) :=
  fun w =>
    let results :=
      simulator_run_sweep (ext w) (length (engine_calls w)) (contents w c) params
        repetitions in
    (results,
     log_engine {| call_circuit := contents w c; call_params := params;
                   call_repetitions := repetitions; call_results := results |} w).

(** The equations of the primitive computations, for [step]. *)
Create HintDb M_steps.

(** [for x in xs: body(x)] *)
Fixpoint for_each {A} (xs : list A) (body : A → M unit) : M unit :=
  match xs with
  | [] => mret tt
  | x :: xs' => body x;; for_each xs' body
  end.

(** A loop over [xs] threading the local variables [s], whose body ends
    in [if stop: break]. *)
Fixpoint for_break {A S} (xs : list A) (body : A → S → M S) (stop : S → bool)
  (s : S) : M S :=
  match xs with
  | [] => mret s
  | x :: xs' =>
      s' ← body x s;
      if stop s' then mret s' else for_break xs' body stop s'
  end.

(** ** class HamiltonianSimulation *)

Module HamiltonianSimulation.

(** The loop [for w, v in zip(ws, vs.T)] of [__init__]. *)
Definition eigen_loop (ws : list R) (vs : Matrix) (t : R) : list (R * Matrix) :=
  fold_left
    (fun eigen_components '(w, v) =>
       let theta := (w * t / PI)%R in
       let P := np_outer v (np_conj v) in
       eigen_components ++ [(theta, P)])
    (zip ws (np_transpose vs)) [].

Definition __init__ (A : Matrix) (t : R) (exponent : R)
  : M HamiltonianSimulation_obj :=
  '(ws, vs) ← eigh A;
  mret {| hs_exponent := exponent; hs_A := A; hs_t := t;
          hs_eigen_components := eigen_loop ws vs t |}.

Definition _num_qubits_ (self : HamiltonianSimulation_obj) : Z := 1.

Definition _with_exponent (self : HamiltonianSimulation_obj) (exponent : R)
  : M HamiltonianSimulation_obj :=
  __init__ (hs_A self) (hs_t self) exponent.

Definition _eigen_components (self : HamiltonianSimulation_obj)
  : list (R * Matrix) :=
  hs_eigen_components self.

End HamiltonianSimulation.

(** ** class PhaseEstimation and class PhaseKickback *)

Module PhaseEstimation.

(** The operations [_decompose_] yields for the gate
    [PhaseEstimation(num_qubits, U)] on [qubits]; [qubits[:-1]] is
    [removelast qubits]. *)
Definition _decompose_ (num_qubits : Z) (U : Gate) (qubits : list Qubit)
  : list Operation :=
  on_each cirq_H (removelast qubits)
  ++ [ on (PhaseKickbackGate num_qubits U) qubits;
       op_inverse
         (on (QuantumFourierTransformGate (length (removelast qubits)) true)
             (removelast qubits)) ].

End PhaseEstimation.

Module PhaseKickback.

(** The loop [for i, qubit in enumerate(qubits)], from index [i] on.
    [self.U ** p] is an operation of the class of [U]: [U_pow p] stands
    for it. *)
Fixpoint kickback_loop (U_pow : Z → M Gate) (memory : Qubit) (i : Z)
  (qubits : list Qubit) : M (list Operation) :=
  match qubits with
  | [] => mret []
  | qubit :: qubits' =>
      g ← U_pow (2 ^ i);
      ops ← kickback_loop U_pow memory (i + 1) qubits';
      mret (on (ControlledGate g 1) [qubit; memory] :: ops)
  end.

(** [None] stands for the IndexError of [qubits.pop()] on an empty
    list. *)
Definition _decompose_ (U_pow : Z → M Gate) (qubits : list Qubit)
  : option (M (list Operation)) :=
  match last qubits with
  | None => None
  | Some memory => Some (kickback_loop U_pow memory 0 (removelast qubits))
  end.

End PhaseKickback.

(** Modelled from the spec: [EigenGate.__pow__], which lives in the cirq
    package.  Raising the gate to a power re-parametrizes it: the
    exponent is multiplied and the gate is rebuilt by [_with_exponent]. *)
Definition EigenGate_pow (self : HamiltonianSimulation_obj) (exponent : Z)
  : M Gate :=
  g ← HamiltonianSimulation._with_exponent self
        (hs_exponent self * IZR exponent)%R;
  mret (HamiltonianSimulationGate g).

(** ** Inverses of gates and circuits *)

(** The world after [np.linalg.eigh] was called on the matrices [As],
    in this order. *)
Definition log_matrices (As : list Matrix) (w : World) : World :=
  {| ext := ext w; heap := heap w; eigh_calls := eigh_calls w ++ As;
     randint_calls := randint_calls w; engine_calls := engine_calls w |}.

(** Modelled from the spec: what evaluating [g ** -1] does besides
    giving the inverse gate, for the operations of the cirq package
    behind it ([EigenGate.__pow__], [ControlledGate.__pow__] and
    [Gate.__pow__]).  An EigenGate is inverted by [_with_exponent] and a
    controlled gate by inverting its sub gate: of the gates of the
    example, only a [HamiltonianSimulation] leaves a trace in the world
    when it is built again. *)
Fixpoint eigen_gate_inverse (g : Gate) : M unit :=
  match g with
  | HamiltonianSimulationGate hs => EigenGate_pow hs (-1);; mret tt
  | ControlledGate sub_gate _ => eigen_gate_inverse sub_gate
  | _ => mret tt
  end.

(** The qubits cirq decomposes a gate of [num_qubits] qubits on when it
    inverts it. *)
Definition line_qubits (num_qubits : Z) : list Qubit :=
  map LineQubit (range num_qubits).

(** Modelled from the spec: a gate that has a decomposition is inverted
    by running its [_decompose_] on line qubits and inverting the
    operations it yields, from the last to the first.  For the phase
    kickback this runs [PhaseKickback._decompose_], which raises the
    unitary to the powers [2^i], and then inverts every controlled
    power. *)
Definition kickback_inverse (num_qubits : Z) (U : Gate) : M unit :=
  match U with
  | HamiltonianSimulationGate hs =>
      match PhaseKickback._decompose_ (EigenGate_pow hs) (line_qubits num_qubits) with
      | Some decomposition =>
          ops ← decomposition;
          for_each (rev ops) (fun op => eigen_gate_inverse (op_gate op))
      | None => mret tt
      end
  | _ => mret tt
  end.

(** The same for the phase estimation: [PhaseEstimation._decompose_]
    yields the H gates, the phase kickback and the inverse Fourier
    transform. *)
Definition estimation_inverse (num_qubits : Z) (U : Gate) : M unit :=
  for_each
    (rev (PhaseEstimation._decompose_ num_qubits U (line_qubits num_qubits)))
    (fun op =>
       match op_gate op with
       | PhaseKickbackGate n U' => kickback_inverse n U'
       | g => eigen_gate_inverse g
       end).

(** The effects of [g ** -1].  The decomposition of an [EigenRotation]
    computes angles only, and the inverse of an inverse is the gate that
    was inverted.  A decomposition that raises (an angle that is not
    defined, a phase kickback of no qubit) makes [g ** -1] raise; [M]
    has no exceptions and this is not represented. *)
Definition pow_m1_effects (g : Gate) : M unit :=
  match g with
  | PhaseEstimationGate num_qubits U => estimation_inverse num_qubits U
  | PhaseKickbackGate num_qubits U => kickback_inverse num_qubits U
  | _ => eigen_gate_inverse g
  end.

(** [op ** -1] *)
Definition op_pow_m1 (op : Operation) : M Operation :=
  pow_m1_effects (op_gate op);; mret (op_inverse op).

(** Modelled from the spec: [c ** -1], a new object that holds the
    inverse of the sequence of [c]; the operations are inverted from the
    last to the first. *)
Definition circuit_pow_m1 (c : CircuitRef) : M CircuitRef :=
  fun w =>
    let ops := contents w c in
    let '(_, w1) :=
      for_each (rev ops) (fun op => pow_m1_effects (op_gate op)) w in
    (length (heap w1), set_heap (heap w1 ++ [circuit_inverse ops]) w1).

(** The matrices whose eigendecomposition [g ** -1] computes. *)
Fixpoint eigen_gate_eighs (g : Gate) : list Matrix :=
  match g with
  | HamiltonianSimulationGate hs => [hs_A hs]
  | ControlledGate sub_gate _ => eigen_gate_eighs sub_gate
  | _ => []
  end.

Definition kickback_eighs (num_qubits : Z) (U : Gate) : list Matrix :=
  match U with
  | HamiltonianSimulationGate hs =>
      replicate (2 * Z.to_nat (num_qubits - 1)) (hs_A hs)
  | _ => []
  end.

Definition pow_m1_eighs (g : Gate) : list Matrix :=
  match g with
  | PhaseEstimationGate num_qubits U => kickback_eighs num_qubits U
  | PhaseKickbackGate num_qubits U => kickback_eighs num_qubits U
  | _ => eigen_gate_eighs g
  end.

(** The matrices whose eigendecomposition [c ** -1] computes. *)
Definition circuit_eighs (c : Circuit) : list Matrix :=
  flat_map (fun op => pow_m1_eighs (op_gate op)) (rev c).

(** ** numpy statistics *)

(** A float that holds a rational number or NaN. *)
Inductive npfloat :=
| Fin (q : Q)
| NaN.

Definition Zsum (l : list Z) : Z := fold_right Z.add 0 l.
Definition Qsum (l : list Q) : Q := fold_right Qplus (0 # 1)%Q l.

(** [np.mean] of an array of integers: NaN for an empty array. *)
Definition np_mean (a : list Z) : npfloat :=
  match a with
  | [] => NaN
  | _ => Fin (inject_Z (Zsum a) / inject_Z (Z.of_nat (length a)))%Q
  end.

(** [np.mean] of a list of floats. *)
Definition np_mean_floats (a : list Q) : npfloat :=
  match a with
  | [] => NaN
  | _ => Fin (Qsum a / inject_Z (Z.of_nat (length a)))%Q
  end.

(** [1 - 2 * x] *)
Definition one_minus_twice (x : npfloat) : npfloat :=
  match x with
  | Fin q => Fin (1 - 2 * q)%Q
  | NaN => NaN
  end.

(** [a / b] on Python integers. *)
Definition int_truediv (a b : Z) : result Q :=
  if b =? 0 then Raise ZeroDivisionError else Ok (inject_Z a / inject_Z b)%Q.

(** [m[a == 1]]: the memory bits of the shots whose ancilla bit is 1. *)
Definition surviving (r : RunResult) : list Z :=
  map shot_m (filter (fun s => shot_a s =? 1) r).

(** [(a == 1).sum()] *)
Definition count_success (r : RunResult) : Z :=
  Z.of_nat (length (filter (fun s => shot_a s =? 1) r)).

(** A line printed by [print_results]. *)
Record Line := {
  line_label : string;
  line_expectation : npfloat;
  line_num_estimates : Z;
  line_runs : Z
}.

(** ** class HHLAlgorithm *)

Module HHLAlgorithm.

Record obj := {
  hhl_A : Matrix;
  hhl_C : R;
  hhl_t : R;
  hhl_register_size : Z;
  hhl_input_prep_gates : list Gate;
  hhl_ancilla : Qubit;
  hhl_register : list Qubit;
  hhl_memory : Qubit
}.

Definition __init__ (A : Matrix) (C t : R) (register_size : Z)
  (input_prep_gates : list Gate) : obj :=
  {| hhl_A := A;
     hhl_C := C;
     hhl_t := t;
     hhl_register_size := register_size;
     hhl_input_prep_gates := input_prep_gates;
     hhl_ancilla := LineQubit 0;
     hhl_register := map (fun i => LineQubit (i + 1)) (range register_size);
     hhl_memory := LineQubit (register_size + 1) |}.

(** The inverse of the phase estimation is evaluated when the list of
    the second [append] is built.  For [register_size < 0] cirq refuses
    the phase estimation, a gate of [register_size + 1] qubits applied to
    one, and the method raises ValueError, which is not represented (see
    [on]). *)
Definition hhl_circuit (self : obj) : M CircuitRef :=
  c ← new_circuit;
  hs ← HamiltonianSimulation.__init__ (hhl_A self) (hhl_t self) 1;
  let pe := PhaseEstimationGate (hhl_register_size self + 1)
              (HamiltonianSimulationGate hs) in
  circuit_append c
    (map (fun gate => on gate [hhl_memory self]) (hhl_input_prep_gates self));;
  pe_inverse ← op_pow_m1 (on pe (hhl_register self ++ [hhl_memory self]));
  circuit_append c
    [ on pe (hhl_register self ++ [hhl_memory self]);
      on (EigenRotationGate
            (EigenRotation.__init__ (hhl_register_size self + 1)
               (hhl_C self) (hhl_t self)))
         (hhl_register self ++ [hhl_ancilla self]);
      pe_inverse ];;
  mret c.

(** For [register_size < 0] cirq refuses the controlled Z (a negative
    number of controls, or no control on one qubit taken twice) and the
    method raises ValueError, which is not represented (see [on]). *)
Definition diffusion_operator (self : obj) : M CircuitRef :=
  let qubits := [hhl_ancilla self] ++ hhl_register self ++ [hhl_memory self] in
  c ← new_circuit;
  circuit_append c (on_each cirq_X qubits);;
  circuit_append c [on (ControlledGate cirq_Z (hhl_register_size self + 1)) qubits];;
  circuit_append c (on_each cirq_X qubits);;
  mret c.

(** The body of the loop of [amplitude_amplification]. *)
Definition amplification_step (c hhl_circuit r_init : CircuitRef)
  (r_succ : Operation) : M unit :=
  circuit_append c [r_succ];;
  inv ← circuit_pow_m1 hhl_circuit;
  circuit_iadd c inv;;
  circuit_iadd c r_init;;
  circuit_iadd c hhl_circuit.

Definition amplitude_amplification (self : obj) (num_iterations : Z)
  : M CircuitRef :=
  hhl_circuit ← hhl_circuit self;
  c ← new_circuit;
  circuit_iadd c hhl_circuit;;
  let r_succ := on cirq_Z [hhl_ancilla self] in
  r_init ← diffusion_operator self;
  for_each (range num_iterations)
    (fun _ => amplification_step c hhl_circuit r_init r_succ);;
  mret c.

Definition measure_circuit (self : obj) (circuit : CircuitRef) : M CircuitRef :=
  circuit_append circuit [cirq_measure (hhl_ancilla self) "a"];;
  circuit_append circuit
    [ on (PhasedXPowGate (Symbol "exponent") (Symbol "phase_exponent"))
         [hhl_memory self];
      cirq_measure (hhl_memory self) "m" ];;
  mret circuit.

(** The loop of [print_results]: the lines printed so far and the list
    [success_probability], or the exception that ended the loop. *)
Fixpoint print_loop (items : list (string * list Z * Z))
  (success_probability : list Q) (out : list Line)
  : list Line * result (list Q) :=
  match items with
  | [] => (out, Ok success_probability)
  | (label, result, runs) :: rest =>
      let expectation := one_minus_twice (np_mean result) in
      let num_estimates := Z.of_nat (length result) in
      let out := out ++ [{| line_label := label;
                            line_expectation := expectation;
                            line_num_estimates := num_estimates;
                            line_runs := runs |}] in
      match int_truediv num_estimates runs with
      | Ok p => print_loop rest (success_probability ++ [p]) out
      | Raise e => (out, Raise e)
      end
  end.

(** What [print_results] prints, and what it returns or raises. *)
Definition print_results (self : obj) (results : list (list Z))
  (num_runs : list Z) : list Line * result npfloat :=
  let '(out, r) :=
    print_loop (zip (zip ["X"; "Y"; "Z"]%string results) num_runs) [] [] in
  (out, success_probability ← r; Ok (np_mean_floats success_probability)).

(** Cases for measuring X, Y and Z on the memory qubit. *)
Definition params : list ParamResolver :=
  [ [("exponent", 1 # 2); ("phase_exponent", - (1 # 2))];
    [("exponent", 1 # 2); ("phase_exponent", 0 # 1)];
    [("exponent", 0 # 1); ("phase_exponent", 0 # 1)] ]%string%Q.

Definition simulate_without_amplification (self : obj) (total_runs : Z)
  : M (list (list Z)) :=
  c ← hhl_circuit self;
  c ← measure_circuit self c;
  results ← run_sweep c params total_runs;
  mret (map surviving results).

(** The local variables of the loops of [simulate_with_amplification]. *)
Record locals := {
  results_for_param : list (list Z);
  repetitions : Z;
  num_runs : Z
}.

(** The body of [for _ in range(2)], before its [break]. *)
Definition trial (self : obj) (resolver : ParamResolver) (l : Z) (s : locals)
  : M locals :=
  let M_ := 2 ^ l in
  j ← randint 0 (M_ - 1);
  c ← amplitude_amplification self j;
  c ← measure_circuit self c;
  result ← run c resolver (repetitions s);
  mret {| num_runs := num_runs s + repetitions s;
          results_for_param := results_for_param s ++ [surviving result];
          repetitions := repetitions s - count_success result |}.

Definition stop (s : locals) : bool := repetitions s <=? 0.

(** The body of [for param in params]. *)
Definition sample_param (self : obj) (total_estimates : Z)
  (param : ParamResolver) : M (list Z * Z) :=
  let resolver := param in
  let s := {| results_for_param := []; repetitions := total_estimates;
              num_runs := 0 |} in
  s ← for_break (range2 1 10)
        (fun l s => for_break (range 2) (fun _ => trial self resolver l) stop s)
        stop s;
  mret (concat (results_for_param s), num_runs s).

Fixpoint for_params (self : obj) (total_estimates : Z)
  (ps : list ParamResolver) (results : list (list Z)) (runs : list Z)
  : M (list (list Z) * list Z) :=
  match ps with
  | [] => mret (results, runs)
  | param :: ps' =>
      '(r, n) ← sample_param self total_estimates param;
      for_params self total_estimates ps' (results ++ [r]) (runs ++ [n])
  end.

Definition simulate_with_amplification (self : obj) (total_estimates : Z)
  : M (list (list Z) * list Z) :=
  for_params self total_estimates params [] [].

End HHLAlgorithm.

(** ** The circuits, in the words of the specification *)

(** The object [HamiltonianSimulation(A, t, exponent)] holds, for an
    eigendecomposition primitive [e]. *)
Definition hs_value (e : External) (A : Matrix) (t exponent : R)
  : HamiltonianSimulation_obj :=
  let '(ws, vs) := np_linalg_eigh e A in
  {| hs_exponent := exponent; hs_A := A; hs_t := t;
     hs_eigen_components := HamiltonianSimulation.eigen_loop ws vs t |}.

Section CircuitComposer.

Import HHLAlgorithm.
Variables (e : External) (self : obj).

(** PhaseEstimationNetwork(register+memory) *)
Definition phase_estimation_network : Operation :=
  on (PhaseEstimationGate (hhl_register_size self + 1)
        (HamiltonianSimulationGate (hs_value e (hhl_A self) (hhl_t self) 1)))
     (hhl_register self ++ [hhl_memory self]).

(** EigenvalueInversionNetwork(register+ancilla) *)
Definition eigenvalue_inversion_network : Operation :=
  on (EigenRotationGate
        (EigenRotation.__init__ (hhl_register_size self + 1)
           (hhl_C self) (hhl_t self)))
     (hhl_register self ++ [hhl_ancilla self]).

(** The input preparation on the memory qubit, then phase estimation,
    eigenvalue inversion and the inverse of the phase estimation. *)
Definition build_base_circuit : Circuit :=
  map (fun g => on g [hhl_memory self]) (hhl_input_prep_gates self)
  ++ [ phase_estimation_network;
       eigenvalue_inversion_network;
       op_inverse phase_estimation_network ].

(** X on every qubit, the controlled Z, X on every qubit again. *)
Definition build_diffusion_operator : Circuit :=
  let qubits := [hhl_ancilla self] ++ hhl_register self ++ [hhl_memory self] in
  on_each cirq_X qubits
  ++ [on (ControlledGate cirq_Z (hhl_register_size self + 1)) qubits]
  ++ on_each cirq_X qubits.

(** Z on the ancilla, the inverse of the base circuit, the diffusion
    operator, the base circuit. *)
Definition amplification_round : Circuit :=
  [on cirq_Z [hhl_ancilla self]]
  ++ circuit_inverse build_base_circuit
  ++ build_diffusion_operator
  ++ build_base_circuit.

(** The base circuit followed by [n] rounds. *)
Definition build_amplified_circuit (n : nat) : Circuit :=
  build_base_circuit ++ concat (replicate n amplification_round).

(** What [measure_circuit] appends. *)
Definition measurement_ops : Circuit :=
  [ cirq_measure (hhl_ancilla self) "a";
    on (PhasedXPowGate (Symbol "exponent") (Symbol "phase_exponent"))
       [hhl_memory self];
    cirq_measure (hhl_memory self) "m" ].

End CircuitComposer.

(** The matrices whose eigendecomposition [hhl_circuit] computes: the
    one of [HamiltonianSimulation.__init__] and those of the inverse of
    the phase estimation. *)
Definition base_eighs (self : HHLAlgorithm.obj) : list Matrix :=
  replicate (1 + 2 * Z.to_nat (HHLAlgorithm.hhl_register_size self))
    (HHLAlgorithm.hhl_A self).

(** The matrices whose eigendecomposition
    [amplitude_amplification(n)] computes. *)
Definition amplified_eighs (e : External) (self : HHLAlgorithm.obj) (n : nat)
  : list Matrix :=
  base_eighs self
  ++ concat (replicate n (circuit_eighs (build_base_circuit e self))).

(** The gates of cirq on one qubit that the example passes as input
    preparation ([cirq.rx], [cirq.rz]) and their like. *)
Definition single_qubit_cirq_gate (g : Gate) : bool :=
  match g with
  | cirq_H | cirq_X | cirq_Z | cirq_rx _ | cirq_ry _ | cirq_rz _ => true
  | _ => false
  end.

(** ** The lines of [print_results], in the words of the specification *)

(** The line of one observable: the expectation is 1 − 2·mean of the
    surviving bits, NaN when no shot survived. *)
Definition line_of (item : string * list Z * Z) : Line :=
  let '(label, result, runs) := item in
  {| line_label := label;
     line_expectation :=
       match result with
       | [] => NaN
       | _ => Fin (1 - 2 * (inject_Z (Zsum result)
                             / inject_Z (Z.of_nat (length result))))%Q
       end;
     line_num_estimates := Z.of_nat (length result);
     line_runs := runs |}.

(** (number of surviving shots) / (number of shots issued) *)
Definition success_probability_of (item : string * list Z * Z) : Q :=
  let '(_, result, runs) := item in
  (inject_Z (Z.of_nat (length result)) / inject_Z runs)%Q.

(** ** The calls of the amplified sampling, in the words of the specification *)






(** ** A world to run examples in *)

(** The matrix diag(1, 4). *)
Definition example_A : Matrix :=
  [ [(1%R, 0%R); (0%R, 0%R)];
    [(0%R, 0%R); (4%R, 0%R)] ].

(** An eigendecomposition primitive that is right on [example_A], a
    random source that draws its lower bound, and a simulator whose every
    shot measures the ancilla as 1 and the memory as 0. *)
Definition example_ext : External :=
  {| np_linalg_eigh := fun _ =>
       ([1%R; 4%R], [ [(1%R, 0%R); (0%R, 0%R)]; [(0%R, 0%R); (1%R, 0%R)] ]);
     random_randint := fun _ a _ => a;
     simulator_run := fun _ _ _ repetitions =>
       replicate (Z.to_nat repetitions) {| shot_a := 1; shot_m := 0 |};
     simulator_run_sweep := fun _ _ params repetitions =>
       map (fun _ => replicate (Z.to_nat repetitions) {| shot_a := 1; shot_m := 0 |})
         params |}.

Definition example_world : World :=
  {| ext := example_ext; heap := []; eigh_calls := [];
     randint_calls := 0; engine_calls := [] |}.

(** ** The rotation angle, in the words of the specification *)

(** [2·arcsin(C·N·t / (2π·k'))] *)
Definition theta_formula (C t : R) (N k' : Z) : R :=
  (2 * asin (C * IZR N * t / (2 * PI * IZR k')))%R.

(** θ(k) for a register of [n] qubits: [N = 2^n], and [k' = k] if
    [k ≠ 0], else [N]. *)
Definition theta_spec (C t : R) (n k : Z) : R :=
  let N := 2 ^ n in
  let k' := if k =? 0 then N else k in
  theta_formula C t N k'.

(** The argument of the arcsine of θ(k). *)
Definition asin_arg (C t : R) (n k : Z) : R :=
  let N := 2 ^ n in
  let k' := if k =? 0 then N else k in
  (C * IZR N * t / (2 * PI * IZR k'))%R.

(** ** X gates on computational basis states *)

#[global] Instance Qubit_eq_dec : EqDecision Qubit.
Proof. solve_decision. Defined.

(** Is [op] the gate X applied to [q]? *)
Definition is_X_on (q : Qubit) (op : Operation) : bool :=
  match op with
  | GateOperation cirq_X [q'] => bool_decide (q = q')
  | _ => false
  end.

(** The accumulated X-gate state of a line: is [q] flipped by the X
    gates of [ops], that is, do an odd number of them act on it? *)
Fixpoint flipped (ops : list Operation) (q : Qubit) : bool :=
  match ops with
  | [] => false
  | op :: ops' => xorb (is_X_on q op) (flipped ops' q)
  end.

(** A classical state of the lines, and the X gates of [ops] applied to
    it. *)
Definition apply_X (ops : list Operation) (state : Qubit → bool) : Qubit → bool :=
  fun q => xorb (state q) (flipped ops q).

(** The register holds the bit pattern [b], big-endian: its last qubit
    holds bit 0. *)
Definition holds_pattern (register : list Qubit) (b : Z) (state : Qubit → bool)
  : Prop :=
  ∀ (i : nat) (q : Qubit),
    register !! i = Some q →
    state q = Z.testbit b (Z.of_nat (length register - 1 - i)).

(** Every control line is 1. *)
Definition all_ones (register : list Qubit) (state : Qubit → bool) : Prop :=
  ∀ q, q ∈ register → state q = true.

(** An Ry rotation with [n] control lines. *)
Definition is_controlled_ry (n : Z) (op : Operation) : bool :=
  (control_count (op_gate op) =? n) && is_ry (controlled_target (op_gate op)).

(** The X gates [place_controls] yields: bit [i] of [xor] decides the
    gate on the [i]-th qubit. *)
Fixpoint x_gates (qs : list Qubit) (xor : Z) : list Operation :=
  match qs with
  | [] => []
  | q :: qs' =>
      (if Z.testbit xor 0 then [on cirq_X [q]] else []) ++ x_gates qs' (Z.shiftr xor 1)
  end.

(** [n] nested [cirq.ControlledGate] around [g]. *)
Definition controlled_n (n : nat) (g : Gate) : Gate :=
  Nat.iter n (fun g => ControlledGate g 1) g.

(** The block of the decomposition for the value [k]: its X gates and
    its controlled rotation. *)
Definition gray_xs (register : list Qubit) (k : Z) : list Operation :=
  x_gates (rev register) (Z.lxor k (k - 1)).

Definition gray_rot (C t : R) (register : list Qubit) (ancilla : Qubit) (k : Z)
  : Operation :=
  on (controlled_n (length register)
        (cirq_ry (theta_spec C t (Z.of_nat (length register)) k)))
     (register ++ [ancilla]).

Definition gray_block (C t : R) (register : list Qubit) (ancilla : Qubit) (k : Z)
  : list Operation :=
  gray_xs register k ++ [gray_rot C t register ancilla k].

(** ** The number of qubits of a gate *)

(** [num_qubits] of a gate: the methods of the four classes of the
    example, and one qubit for the gates of cirq it applies to single
    qubits. *)
Fixpoint gate_num_qubits (g : Gate) : Z :=
  match g with
  | cirq_H | cirq_X | cirq_Z => 1
  | cirq_rx _ | cirq_ry _ | cirq_rz _ => 1
  | ControlledGate sub_gate num_controls => num_controls + gate_num_qubits sub_gate
  | QuantumFourierTransformGate n _ => Z.of_nat n
  | PhasedXPowGate _ _ => 1
  | MeasurementGate _ => 1
  | PhaseEstimationGate num_qubits _ => num_qubits
  | PhaseKickbackGate num_qubits _ => num_qubits
  | HamiltonianSimulationGate self => HamiltonianSimulation._num_qubits_ self
  | EigenRotationGate self => EigenRotation.num_qubits self
  | InverseGate g => gate_num_qubits g
  end.

(** An operation cirq accepts: its gate is applied to as many qubits as
    it has, all distinct. *)
Definition well_formed (op : Operation) : Prop :=
  gate_num_qubits (op_gate op) = Z.of_nat (length (op_qubits op))
  ∧ NoDup (op_qubits op).

(** All the qubits of the algorithm: ancilla, register, memory. *)
Definition all_qubits (self : HHLAlgorithm.obj) : list Qubit :=
  [HHLAlgorithm.hhl_ancilla self] ++ HHLAlgorithm.hhl_register self
  ++ [HHLAlgorithm.hhl_memory self].

(** The number of X gates among operations. *)
Definition count_X (ops : list Operation) : nat :=
  length (List.filter (fun op => match op_gate op with cirq_X => true | _ => false end) ops).

(** The number of 1 bits among the [m] lowest bits of [x]: the number of
    X gates [place_controls] yields for [m] qubits. *)
Fixpoint ones_below (m : nat) (x : Z) : nat :=
  match m with
  | O => 0
  | S m' => (if Z.testbit x 0 then 1 else 0) + ones_below m' (Z.shiftr x 1)
  end.

(** ** The calls of the amplified sampling, as the code makes them *)




(** * Properties *)

(** ** Python and numpy prelude *)

Lemma bind_Ok {A B} (f : A → result B) (a : A) : (Ok a ≫= f) = f a.
Proof. reflexivity. Qed.

Lemma bind_Raise {A B} (f : A → result B) (e : exn) : (Raise e ≫= f) = Raise e.
Proof. reflexivity. Qed.

Lemma math_asin_Ok (x : R) : (-1 <= x <= 1)%R → math_asin x = Ok (asin x).
Proof.
  intros [Hl Hu]. unfold math_asin.
  destruct (Rle_dec (-1) x); [|contradiction].
  destruct (Rle_dec x 1); [reflexivity|contradiction].
Qed.

Lemma math_asin_Raise (x : R) : (1 < x)%R → math_asin x = Raise ValueError.
Proof.
  intros Hx. unfold math_asin.
  destruct (Rle_dec (-1) x); [|reflexivity].
  destruct (Rle_dec x 1); [lra|reflexivity].
Qed.

Lemma math_asin_inv (x a : R) : math_asin x = Ok a → (-1 <= x <= 1)%R ∧ a = asin x.
Proof.
  unfold math_asin.
  destruct (Rle_dec (-1) x); [|discriminate].
  destruct (Rle_dec x 1); [|discriminate].
  intros [= <-]. auto.
Qed.

Lemma py_div_Ok (x y : R) : y ≠ 0%R → py_div x y = Ok (x / y)%R.
Proof.
  intros Hy. unfold py_div. destruct (Req_dec_T y 0); [contradiction|reflexivity].
Qed.

Lemma PI_gt_2 : (2 < PI)%R.
Proof. pose proof PI2_1. lra. Qed.

Lemma two_PI_k_neq_0 (k : Z) : 0 < k → (2 * PI * IZR k)%R ≠ 0%R.
Proof.
  intros Hk. apply IZR_lt in Hk. pose proof PI_gt_2.
  apply Rgt_not_eq. apply Rmult_lt_0_compat; lra.
Qed.

Lemma pow2_nonneg (n : Z) : 0 <= n → pow2 n = PyInt (2 ^ n).
Proof. intros Hn. unfold pow2. destruct (Z.leb_spec 0 n); [reflexivity|lia]. Qed.

Lemma range_length (n : Z) : length (range n) = Z.to_nat n.
Proof. unfold range. now rewrite length_map, length_seq. Qed.

Lemma range_lookup (n : Z) (i : nat) :
  (i < Z.to_nat n)%nat → range n !! i = Some (Z.of_nat i).
Proof.
  intros Hi. unfold range. rewrite list_lookup_fmap.
  rewrite lookup_seq_lt by assumption. reflexivity.
Qed.

Lemma range_succ (n : Z) : 0 <= n → range (n + 1) = range n ++ [n].
Proof.
  intros Hn. unfold range.
  replace (Z.to_nat (n + 1)) with (Z.to_nat n + 1)%nat by lia.
  rewrite seq_app, map_app. simpl. now rewrite Z2Nat.id.
Qed.

Lemma elem_of_range (n k : Z) : k ∈ range n ↔ 0 <= k < n.
Proof.
  unfold range. rewrite list_elem_of_fmap. split.
  - intros (i & -> & Hi). apply elem_of_seq in Hi. lia.
  - intros Hk. exists (Z.to_nat k). split; [lia|]. apply elem_of_seq. lia.
Qed.

(** ** EigenRotation: the rotation angles *)

Section AncillaRotation.

Variables (C t : R) (n : Z).
Hypothesis Hn : 0 <= n.

Local Abbreviation self := (EigenRotation.__init__ (n + 1) C t).

Lemma er_N_init : er_N self = PyInt (2 ^ n).
Proof.
  unfold EigenRotation.__init__. simpl.
  replace (n + 1 - 1) with n by lia. now apply pow2_nonneg.
Qed.

Lemma ancilla_rotation_unfold (k : Z) :
  0 <= k <= 2 ^ n →
  EigenRotation._ancilla_rotation self k =
    (a ← math_asin (asin_arg C t n k); Ok (cirq_ry (2 * a)%R)).
Proof.
  intros Hk. unfold EigenRotation._ancilla_rotation, asin_arg.
  rewrite er_N_init.
  assert (0 < 2 ^ n) by (apply Z.pow_pos_nonneg; lia).
  destruct (Z.eqb_spec k 0) as [->|Hne]; simpl to_R.
  - rewrite py_div_Ok by (apply two_PI_k_neq_0; lia). reflexivity.
  - rewrite py_div_Ok by (apply two_PI_k_neq_0; lia). reflexivity.
Qed.

Lemma ancilla_rotation_Ok (k : Z) :
  0 <= k <= 2 ^ n →
  (-1 <= asin_arg C t n k <= 1)%R →
  EigenRotation._ancilla_rotation self k = Ok (cirq_ry (theta_spec C t n k)).
Proof.
  intros Hk Hx. rewrite ancilla_rotation_unfold by assumption.
  rewrite math_asin_Ok by assumption. reflexivity.
Qed.

Lemma ancilla_rotation_inv (k : Z) (g : Gate) :
  0 <= k <= 2 ^ n →
  EigenRotation._ancilla_rotation self k = Ok g →
  (-1 <= asin_arg C t n k <= 1)%R ∧ g = cirq_ry (theta_spec C t n k).
Proof.
  intros Hk. rewrite ancilla_rotation_unfold by assumption.
  destruct (math_asin (asin_arg C t n k)) as [a|e] eqn:Ha; [|discriminate].
  apply math_asin_inv in Ha as [Hx ->]. intros [= <-]. auto.
Qed.

Lemma ancilla_rotation_zero_bucket :
  EigenRotation._ancilla_rotation self 0 =
  EigenRotation._ancilla_rotation self (2 ^ n).
Proof.
  assert (0 < 2 ^ n) by (apply Z.pow_pos_nonneg; lia).
  rewrite !ancilla_rotation_unfold by lia.
  unfold asin_arg. simpl.
  destruct (Z.eqb_spec (2 ^ n) 0); [lia|reflexivity].
Qed.

End AncillaRotation.

(** ** EigenRotation: when the angles are defined *)

Lemma Rdiv_le_1_iff (a b : R) : (0 < b)%R → (a / b <= 1)%R ↔ (a <= b)%R.
Proof.
  intros Hb. assert (E : a = (a / b * b)%R) by (field; lra).
  revert E. generalize (a / b)%R. intros q ->. split; intros H; nra.
Qed.

Lemma Rdiv_nonneg (a b : R) : (0 <= a)%R → (0 < b)%R → (0 <= a / b)%R.
Proof.
  intros Ha Hb. assert (E : a = (a / b * b)%R) by (field; lra).
  revert E Ha. generalize (a / b)%R. intros q -> Ha. nra.
Qed.

Lemma Rle_div_iff (c a b : R) : (0 < b)%R → (c <= a / b)%R ↔ (c * b <= a)%R.
Proof.
  intros Hb. assert (E : a = (a / b * b)%R) by (field; lra).
  revert E. generalize (a / b)%R. intros q ->. split; intros H; nra.
Qed.

Section AngleDomain.

Variables (C t : R) (n : Z).
Hypothesis Hn : 0 <= n.

Lemma asin_arg_in_domain (k : Z) :
  0 <= k <= 2 ^ n →
  (0 <= C * IZR (2 ^ n) * t <= 2 * PI)%R →
  (-1 <= asin_arg C t n k <= 1)%R.
Proof.
  intros Hk [Hlo Hhi]. unfold asin_arg. simpl.
  assert (HN : 0 < 2 ^ n) by (apply Z.pow_pos_nonneg; lia).
  assert (Hk' : 1 <= (if k =? 0 then 2 ^ n else k))
    by (destruct (Z.eqb_spec k 0); lia).
  revert Hk'. generalize (if k =? 0 then 2 ^ n else k). intros k' Hk'.
  apply IZR_le in Hk'. pose proof PI_gt_2.
  assert (Hden : (2 * PI <= 2 * PI * IZR k')%R) by nra.
  split.
  - apply Rle_trans with 0%R; [lra|]. apply Rdiv_nonneg; lra.
  - apply Rdiv_le_1_iff; lra.
Qed.

Lemma asin_arg_at_1 :
  1 <= n → asin_arg C t n 1 = (C * IZR (2 ^ n) * t / (2 * PI))%R.
Proof. intros _. unfold asin_arg. simpl. now rewrite Rmult_1_r. Qed.

Lemma ancilla_rotation_all_Ok :
  (0 <= C * IZR (2 ^ n) * t <= 2 * PI)%R →
  ∀ k, 0 <= k <= 2 ^ n →
    EigenRotation._ancilla_rotation (EigenRotation.__init__ (n + 1) C t) k
    = Ok (cirq_ry (theta_spec C t n k)).
Proof.
  intros Hb k Hk. apply ancilla_rotation_Ok; [assumption..|].
  now apply asin_arg_in_domain.
Qed.

Lemma ancilla_rotation_1_Raise :
  1 <= n →
  (2 * PI < C * IZR (2 ^ n) * t)%R →
  EigenRotation._ancilla_rotation (EigenRotation.__init__ (n + 1) C t) 1
  = Raise ValueError.
Proof.
  intros Hn1 Hb.
  assert (HN : 1 < 2 ^ n) by (apply Z.pow_gt_1; lia).
  rewrite ancilla_rotation_unfold by lia.
  rewrite math_asin_Raise; [reflexivity|].
  rewrite asin_arg_at_1 by assumption.
  pose proof PI_gt_2.
  apply Rnot_le_lt. intros Hle. apply (Rdiv_le_1_iff _ (2 * PI)) in Hle; lra.
Qed.

End AngleDomain.

(** C2: for every [k] in [[0, 2^n)], when the argument of the arcsine is
    in its domain, the rotation [_ancilla_rotation] builds for [k] is the
    Ry rotation by θ(k) = 2·arcsin(C·N·t / (2π·k')) with [N = 2^n] and
    [k' = k] if [k ≠ 0] else [N], and no other gate is ever returned;
    θ(0) is the value of the formula at [k' = N], and the rotation built
    for [k = 0] is the one built for [k = N]. *)
Theorem C2_ancilla_rotation_angle (C t : R) (n k : Z) :
  0 <= n → 0 <= k < 2 ^ n →
  (-1 <= asin_arg C t n k <= 1)%R →
  let self := EigenRotation.__init__ (n + 1) C t in
  EigenRotation._ancilla_rotation self k = Ok (cirq_ry (theta_spec C t n k))
  ∧ (∀ k0 g, 0 <= k0 < 2 ^ n →
       EigenRotation._ancilla_rotation self k0 = Ok g →
       g = cirq_ry (theta_spec C t n k0))
  ∧ theta_spec C t n 0 = theta_formula C t (2 ^ n) (2 ^ n)
  ∧ EigenRotation._ancilla_rotation self 0
    = EigenRotation._ancilla_rotation self (2 ^ n).
Proof.
  intros Hn Hk Hx self. repeat split.
  - apply ancilla_rotation_Ok; [lia..|assumption].
  - intros k0 g Hk0 Hg. eapply ancilla_rotation_inv; [| |exact Hg]; lia.
  - now apply ancilla_rotation_zero_bucket.
Qed.

Lemma C2_ancilla_rotation_angle_witness :
  0 <= 2 ∧ 0 <= 3 < 2 ^ 2 ∧ (-1 <= asin_arg 1 1 2 3 <= 1)%R
  ∧ EigenRotation._ancilla_rotation (EigenRotation.__init__ (2 + 1) 1 1) 3
    = Ok (cirq_ry (theta_spec 1 1 2 3)).
Proof.
  assert (Hx : (-1 <= asin_arg 1 1 2 3 <= 1)%R).
  { apply asin_arg_in_domain; [lia|lia|].
    pose proof PI_gt_2. simpl. lra. }
  split; [lia|]. split; [lia|]. split; [exact Hx|].
  apply (C2_ancilla_rotation_angle 1 1 2 3); [lia|lia|exact Hx].
Defined.

(** ** EigenRotation: the Gray-code decomposition *)

Lemma controlled_n_succ (m : nat) (g : Gate) :
  controlled_n m (ControlledGate g 1) = controlled_n (S m) g.
Proof. unfold controlled_n. now rewrite Nat.iter_succ_r. Qed.

Lemma control_count_controlled_n (m : nat) (g : Gate) :
  control_count (controlled_n m g) = Z.of_nat m + control_count g.
Proof.
  induction m as [|m IH]; [reflexivity|].
  unfold controlled_n in *. rewrite Nat.iter_succ. cbn [control_count].
  rewrite IH. lia.
Qed.

Lemma controlled_target_controlled_n (m : nat) (g : Gate) :
  controlled_target (controlled_n m g) = controlled_target g.
Proof.
  induction m as [|m IH]; [reflexivity|].
  unfold controlled_n in *. rewrite Nat.iter_succ. exact IH.
Qed.

Lemma is_X_on_controlled_n (m : nat) (theta : R) (q : Qubit) (qs : list Qubit) :
  is_X_on q (on (controlled_n m (cirq_ry theta)) qs) = false.
Proof. destruct m; reflexivity. Qed.

Lemma place_controls_spec (qs : list Qubit) (xor : Z) (g : Gate) :
  EigenRotation.place_controls qs xor g
  = (x_gates qs xor, controlled_n (length qs) g).
Proof.
  revert xor g. induction qs as [|q qs IH]; intros xor g; [reflexivity|].
  cbn [EigenRotation.place_controls x_gates length].
  rewrite IH, controlled_n_succ, Z.bit0_eqb. reflexivity.
Qed.

Lemma flipped_app (a b : list Operation) (q : Qubit) :
  flipped (a ++ b) q = xorb (flipped a q) (flipped b q).
Proof.
  induction a as [|op a IH]; simpl.
  - now destruct (flipped b q).
  - rewrite IH. now rewrite xorb_assoc.
Qed.

Lemma flipped_x_gates_notin (qs : list Qubit) (xor : Z) (q : Qubit) :
  q ∉ qs → flipped (x_gates qs xor) q = false.
Proof.
  revert xor. induction qs as [|q' qs IH]; intros xor Hq; [reflexivity|].
  apply not_elem_of_cons in Hq as [Hne Hq].
  cbn [x_gates]. rewrite flipped_app, IH by assumption.
  destruct (Z.testbit xor 0); simpl; [|reflexivity].
  rewrite bool_decide_eq_false_2 by assumption. reflexivity.
Qed.

Lemma flipped_x_gates_lookup (qs : list Qubit) (xor : Z) (i : nat) (q : Qubit) :
  NoDup qs → qs !! i = Some q →
  flipped (x_gates qs xor) q = Z.testbit xor (Z.of_nat i).
Proof.
  revert xor i. induction qs as [|q' qs IH]; intros xor i Hnd Hi; [discriminate|].
  apply NoDup_cons in Hnd as [Hq' Hnd].
  cbn [x_gates]. rewrite flipped_app.
  destruct i as [|i]; simpl in Hi.
  - injection Hi as ->. rewrite flipped_x_gates_notin by assumption.
    change (Z.of_nat 0) with 0.
    destruct (Z.testbit xor 0) eqn:Hb; simpl; [|reflexivity].
    rewrite bool_decide_eq_true_2 by reflexivity. reflexivity.
  - rewrite (IH _ i) by assumption.
    assert (q ≠ q').
    { intros ->. apply Hq'. eapply list_elem_of_lookup_2. eassumption. }
    rewrite Z.shiftr_spec by lia.
    replace (Z.of_nat (S i)) with (Z.of_nat i + 1) by lia.
    destruct (Z.testbit xor 0); simpl; [|reflexivity].
    rewrite bool_decide_eq_false_2 by assumption. reflexivity.
Qed.

Lemma for_yield_Ok {A B} (body : A → result (list B)) (f : A → list B)
  (xs : list A) :
  (∀ x, x ∈ xs → body x = Ok (f x)) →
  EigenRotation.for_yield xs body = Ok (concat (map f xs)).
Proof.
  induction xs as [|x xs IH]; intros Hbody; [reflexivity|].
  cbn [EigenRotation.for_yield]. rewrite Hbody by left.
  rewrite bind_Ok, IH by (intros; apply Hbody; now right).
  reflexivity.
Qed.

Lemma for_yield_Raise {A B} (body : A → result (list B)) (xs : list A)
  (x : A) (e : exn) :
  x ∈ xs → (∀ y, y ∈ xs → body y = Raise e ∨ ∃ b, body y = Ok b) →
  body x = Raise e →
  EigenRotation.for_yield xs body = Raise e.
Proof.
  intros Hx Hall Hraise. induction xs as [|y xs IH]; [now apply elem_of_nil in Hx|].
  cbn [EigenRotation.for_yield].
  destruct (Hall y) as [Hy|[b Hy]]; [left|rewrite Hy; reflexivity|].
  rewrite Hy, bind_Ok. apply elem_of_cons in Hx as [->|Hx]; [congruence|].
  rewrite IH; [reflexivity|assumption|].
  intros z Hz. apply Hall. now right.
Qed.

Lemma rev_reverse {A} (l : list A) : rev l = reverse l.
Proof. apply rev_alt. Qed.

Lemma NoDup_rev_1 {A} (l : list A) : NoDup l → NoDup (rev l).
Proof. intros H. rewrite rev_reverse. now rewrite reverse_Permutation. Qed.

Lemma bits_eq_below (n b k : Z) :
  0 <= n → 0 <= b < 2 ^ n → 0 <= k < 2 ^ n →
  (∀ p, 0 <= p < n → Z.testbit b p = Z.testbit k p) → b = k.
Proof.
  intros Hn Hb Hk Hbits.
  rewrite <- (Z.mod_small b (2 ^ n)), <- (Z.mod_small k (2 ^ n)) by assumption.
  apply Z.bits_inj'. intros p Hp.
  rewrite !Z.testbit_mod_pow2 by assumption.
  destruct (Z.ltb_spec p n); [|reflexivity].
  simpl. apply Hbits. lia.
Qed.

Lemma gray_step (k p : Z) (prev : bool) :
  prev = negb (Z.testbit k p) →
  xorb prev (Z.testbit (Z.lxor (k + 1) (k + 1 - 1)) p) = negb (Z.testbit (k + 1) p).
Proof.
  intros ->. replace (k + 1 - 1) with k by lia. rewrite Z.lxor_spec.
  destruct (Z.testbit k p), (Z.testbit (k + 1) p); reflexivity.
Qed.

Section GrayCode.

Variables (C t : R) (register : list Qubit) (ancilla : Qubit).
Hypothesis Hnd : NoDup register.

Local Abbreviation n := (Z.of_nat (length register)).
Local Abbreviation qubits := (register ++ [ancilla]).
Local Abbreviation self := (EigenRotation.__init__ (n + 1) C t).

Lemma slice_register : slice_from_m2_rev qubits = rev register.
Proof. unfold slice_from_m2_rev. now rewrite removelast_last. Qed.

Lemma block_Ok (k : Z) :
  0 <= k < 2 ^ n →
  (-1 <= asin_arg C t n k <= 1)%R →
  EigenRotation.block self qubits k = Ok (gray_block C t register ancilla k).
Proof.
  intros Hk Hx. unfold EigenRotation.block.
  rewrite ancilla_rotation_Ok by first [lia|assumption].
  rewrite bind_Ok, slice_register, place_controls_spec.
  rewrite length_rev. reflexivity.
Qed.

Lemma decompose_Ok :
  (∀ k, 0 <= k < 2 ^ n → (-1 <= asin_arg C t n k <= 1)%R) →
  EigenRotation._decompose_ self qubits
  = Ok (concat (map (gray_block C t register ancilla) (range (2 ^ n)))).
Proof.
  intros Hdom. unfold EigenRotation._decompose_.
  rewrite er_N_init by lia.
  apply for_yield_Ok. intros k Hk. apply elem_of_range in Hk.
  apply block_Ok; auto.
Qed.

Lemma flipped_gray_rot (k : Z) (q : Qubit) :
  flipped [gray_rot C t register ancilla k] q = false.
Proof.
  unfold gray_rot. cbn [flipped]. now rewrite is_X_on_controlled_n.
Qed.

Lemma flipped_gray_block (k : Z) (p : nat) (q : Qubit) :
  rev register !! p = Some q →
  flipped (gray_block C t register ancilla k) q
  = Z.testbit (Z.lxor k (k - 1)) (Z.of_nat p).
Proof.
  intros Hp. unfold gray_block, gray_xs.
  rewrite flipped_app, flipped_gray_rot, xorb_false_r.
  apply flipped_x_gates_lookup; [now apply NoDup_rev_1|assumption].
Qed.

Lemma flipped_prefix (k p : nat) (q : Qubit) :
  rev register !! p = Some q →
  flipped (concat (map (gray_block C t register ancilla) (range (Z.of_nat k)))
           ++ gray_xs register (Z.of_nat k)) q
  = negb (Z.testbit (Z.of_nat k) (Z.of_nat p)).
Proof.
  intros Hp. induction k as [|k IH].
  - simpl. unfold gray_xs.
    rewrite (flipped_x_gates_lookup _ _ p); [|now apply NoDup_rev_1|assumption].
    simpl. rewrite Z.bits_m1, Z.bits_0 by lia. reflexivity.
  - replace (Z.of_nat (S k)) with (Z.of_nat k + 1) by lia.
    rewrite range_succ by lia.
    rewrite map_app, concat_app. cbn [map concat]. rewrite app_nil_r.
    unfold gray_block at 2. rewrite !app_assoc.
    rewrite flipped_app, flipped_app, flipped_gray_rot, xorb_false_r.
    rewrite (flipped_app _ (gray_xs _ _)) in IH.
    rewrite flipped_app. unfold gray_xs at 2.
    rewrite (flipped_x_gates_lookup _ _ p); [|now apply NoDup_rev_1|assumption].
    now apply gray_step.
Qed.

End GrayCode.

Lemma pattern_all_ones (register : list Qubit) (pre : list Operation)
  (k b : Z) (state : Qubit → bool) :
  0 <= k < 2 ^ Z.of_nat (length register) →
  0 <= b < 2 ^ Z.of_nat (length register) →
  (∀ p q, rev register !! p = Some q →
          flipped pre q = negb (Z.testbit k (Z.of_nat p))) →
  holds_pattern register b state →
  all_ones register (apply_X pre state) ↔ b = k.
Proof.
  intros Hk Hb Hpre Hstate. unfold all_ones, apply_X. split.
  - intros Hones. apply (bits_eq_below (Z.of_nat (length register))); [lia|lia|lia|].
    intros p Hp.
    destruct (lookup_lt_is_Some_2 (rev register) (Z.to_nat p)) as [q Hq].
    { rewrite length_rev. lia. }
    pose proof Hq as Hq'. rewrite rev_reverse in Hq'.
    apply reverse_lookup_Some in Hq' as [Hq' Hlt].
    specialize (Hones q (list_elem_of_lookup_2 _ _ _ Hq')).
    rewrite (Hpre _ _ Hq), (Hstate _ _ Hq') in Hones.
    replace (Z.of_nat (length register - 1 - (length register - S (Z.to_nat p))))
      with p in Hones by lia.
    rewrite Z2Nat.id in Hones by lia.
    destruct (Z.testbit b p), (Z.testbit k p); simpl in Hones; congruence.
  - intros -> q Hq. apply list_elem_of_lookup_1 in Hq as [i Hi].
    pose proof (lookup_lt_Some _ _ _ Hi) as Hlt.
    assert (Hrev : rev register !! (length register - 1 - i)%nat = Some q).
    { rewrite rev_reverse. apply reverse_lookup_Some. split; [|lia].
      replace (length register - S (length register - 1 - i))%nat with i by lia.
      assumption. }
    rewrite (Hpre _ _ Hrev), (Hstate _ _ Hi).
    now destruct (Z.testbit k _).
Qed.

Lemma filter_x_gates (n : Z) (qs : list Qubit) (xor : Z) :
  List.filter (is_controlled_ry n) (x_gates qs xor) = [].
Proof.
  revert xor. induction qs as [|q qs IH]; intros xor; [reflexivity|].
  cbn [x_gates]. rewrite List.filter_app, IH, app_nil_r.
  destruct (Z.testbit xor 0); [|reflexivity].
  unfold is_controlled_ry. simpl. now rewrite andb_false_r.
Qed.

Lemma is_controlled_ry_gray_rot (C t : R) (register : list Qubit)
  (ancilla : Qubit) (k : Z) :
  is_controlled_ry (Z.of_nat (length register)) (gray_rot C t register ancilla k)
  = true.
Proof.
  unfold is_controlled_ry, gray_rot, on, op_gate.
  rewrite control_count_controlled_n, controlled_target_controlled_n.
  simpl. rewrite Z.add_0_r, Z.eqb_refl. reflexivity.
Qed.

Lemma count_rotations (C t : R) (register : list Qubit) (ancilla : Qubit)
  (ks : list Z) :
  length (List.filter (is_controlled_ry (Z.of_nat (length register)))
            (concat (map (gray_block C t register ancilla) ks)))
  = length ks.
Proof.
  induction ks as [|k ks IH]; [reflexivity|].
  cbn [map concat]. unfold gray_block at 1, gray_xs.
  rewrite !List.filter_app, filter_x_gates. cbn [List.filter app].
  rewrite is_controlled_ry_gray_rot. simpl. now rewrite IH.
Qed.

Lemma take_map_range {A} (f : Z → A) (N k : Z) :
  0 <= k <= N → take (Z.to_nat k) (map f (range N)) = map f (range k).
Proof.
  intros Hk. unfold range.
  change (take (Z.to_nat k) (f <$> (Z.of_nat <$> seq 0 (Z.to_nat N)))
          = map f (map Z.of_nat (seq 0 (Z.to_nat k)))).
  rewrite <- !fmap_take, take_seq.
  replace (Z.to_nat k `min` Z.to_nat N)%nat with (Z.to_nat k) by lia.
  reflexivity.
Qed.

(** C3: when every angle is defined, the decomposition of the
    eigenvalue-inversion network over a register of [n] distinct qubits
    is a sequence of 2^n blocks.  The block of [k] is the X gates chosen
    by the bits of [k XOR (k-1)], least significant bit first from the
    last register qubit, followed by one rotation on all the qubits: an
    Ry by θ(k) under [n] controls.  After the X gates of that block, the
    X gates applied so far send a register state to the all-ones control
    pattern exactly when it holds the bit pattern [k].  The network has
    exactly 2^n controlled rotations. *)
Theorem C3_gray_code_blocks (C t : R) (register : list Qubit) (ancilla : Qubit) :
  let n := Z.of_nat (length register) in
  let qubits := register ++ [ancilla] in
  let self := EigenRotation.__init__ (n + 1) C t in
  NoDup register →
  (∀ k, 0 <= k < 2 ^ n → (-1 <= asin_arg C t n k <= 1)%R) →
  ∃ blocks : list (list Operation),
    EigenRotation._decompose_ self qubits = Ok (concat blocks)
    ∧ Z.of_nat (length blocks) = 2 ^ n
    ∧ Z.of_nat (length (List.filter (is_controlled_ry n) (concat blocks))) = 2 ^ n
    ∧ ∀ k, 0 <= k < 2 ^ n →
        let xs := x_gates (rev register) (Z.lxor k (k - 1)) in
        ∃ g,
          blocks !! Z.to_nat k = Some (xs ++ [on g qubits])
          ∧ control_count g = n
          ∧ controlled_target g = cirq_ry (theta_spec C t n k)
          ∧ ∀ b state,
              0 <= b < 2 ^ n →
              holds_pattern register b state →
              all_ones register
                (apply_X (concat (take (Z.to_nat k) blocks) ++ xs) state)
              ↔ b = k.
Proof.
  intros n qubits self Hnd Hdom.
  assert (HN : 0 < 2 ^ n) by (apply Z.pow_pos_nonneg; lia).
  exists (map (gray_block C t register ancilla) (range (2 ^ n))).
  split; [now apply decompose_Ok|].
  split; [rewrite length_map, range_length; lia|].
  split; [unfold n; rewrite count_rotations, range_length; lia|].
  intros k Hk xs.
  exists (controlled_n (length register) (cirq_ry (theta_spec C t n k))).
  split; [|split; [|split]].
  - change (map ?f ?l) with (f <$> l). rewrite list_lookup_fmap.
    rewrite range_lookup by lia. simpl. rewrite Z2Nat.id by lia. reflexivity.
  - rewrite control_count_controlled_n. simpl. lia.
  - now rewrite controlled_target_controlled_n.
  - intros b state Hb Hstate.
    apply pattern_all_ones; [assumption..| |assumption].
    intros p q Hp. rewrite take_map_range by lia.
    pose proof (flipped_prefix C t register ancilla Hnd (Z.to_nat k) p q Hp) as Hf.
    rewrite Z2Nat.id in Hf by lia. exact Hf.
Qed.

Lemma C3_gray_code_blocks_witness :
  NoDup [LineQubit 1; LineQubit 2]
  ∧ (∀ k, 0 <= k < 2 ^ 2 → (-1 <= asin_arg 1 1 2 k <= 1)%R)
  ∧ ∃ blocks : list (list Operation),
      EigenRotation._decompose_ (EigenRotation.__init__ (2 + 1) 1 1)
        [LineQubit 1; LineQubit 2; LineQubit 0] = Ok (concat blocks)
      ∧ Z.of_nat (length blocks) = 4.
Proof.
  assert (Hnd : NoDup [LineQubit 1; LineQubit 2]).
  { apply NoDup_ListNoDup. repeat constructor; simpl; intuition congruence. }
  assert (Hdom : ∀ k, 0 <= k < 2 ^ 2 → (-1 <= asin_arg 1 1 2 k <= 1)%R).
  { intros k Hk. apply asin_arg_in_domain; [lia|lia|].
    pose proof PI_gt_2. simpl. lra. }
  split; [exact Hnd|]. split; [exact Hdom|].
  destruct (C3_gray_code_blocks 1 1 [LineQubit 1; LineQubit 2] (LineQubit 0)
              Hnd Hdom) as (blocks & Hdec & Hlen & _).
  exists blocks. split; [exact Hdec|exact Hlen].
Defined.

(** The decomposition for two register qubits, as the circuit diagram of
    the example draws it: X on both register qubits before the first and
    the third rotation, X on the last register qubit before the second
    and the fourth. *)
Example decompose_two_register_qubits :
  let q0 := LineQubit 0 in
  let q1 := LineQubit 1 in
  let q2 := LineQubit 2 in
  let ry k := on (ControlledGate (ControlledGate (cirq_ry (theta_spec 1 1 2 k)) 1) 1)
                 [q1; q2; q0] in
  EigenRotation._decompose_ (EigenRotation.__init__ 3 1 1) [q1; q2; q0]
  = Ok [ on cirq_X [q2]; on cirq_X [q1]; ry 0;
         on cirq_X [q2]; ry 1;
         on cirq_X [q2]; on cirq_X [q1]; ry 2;
         on cirq_X [q2]; ry 3 ].
Proof.
  intros q0 q1 q2 ry.
  change (EigenRotation._decompose_
            (EigenRotation.__init__ (Z.of_nat (length [q1; q2]) + 1) 1 1)
            ([q1; q2] ++ [q0]) = Ok [ on cirq_X [q2]; on cirq_X [q1]; ry 0;
                                      on cirq_X [q2]; ry 1;
                                      on cirq_X [q2]; on cirq_X [q1]; ry 2;
                                      on cirq_X [q2]; ry 3 ]).
  rewrite decompose_Ok.
  - reflexivity.
  - intros k Hk. simpl in Hk. apply (asin_arg_in_domain 1 1 2); [lia|lia|].
    pose proof PI_gt_2. simpl. lra.
Qed.

(** ** EigenRotation: a violated bound *)

Lemma block_Ok_or_Raise (C t : R) (n : Z) (qubits : list Qubit) (k : Z) :
  0 <= n → 0 <= k < 2 ^ n →
  EigenRotation.block (EigenRotation.__init__ (n + 1) C t) qubits k
  = Raise ValueError
  ∨ ∃ b, EigenRotation.block (EigenRotation.__init__ (n + 1) C t) qubits k = Ok b.
Proof.
  intros Hn Hk. unfold EigenRotation.block.
  rewrite ancilla_rotation_unfold by lia.
  unfold math_asin.
  destruct (Rle_dec (-1) (asin_arg C t n k)); [|now left].
  destruct (Rle_dec (asin_arg C t n k) 1); [|now left].
  right. rewrite !bind_Ok.
  destruct (EigenRotation.place_controls _ _ _). eauto.
Qed.

Lemma decompose_Raise (C t : R) (n : Z) (qubits : list Qubit) :
  1 <= n →
  (2 * PI < C * IZR (2 ^ n) * t)%R →
  EigenRotation._decompose_ (EigenRotation.__init__ (n + 1) C t) qubits
  = Raise ValueError.
Proof.
  intros Hn Hb. unfold EigenRotation._decompose_. rewrite er_N_init by lia.
  assert (HN : 1 < 2 ^ n) by (apply Z.pow_gt_1; lia).
  apply (for_yield_Raise _ _ 1).
  - apply elem_of_range. lia.
  - intros k Hk. apply elem_of_range in Hk. apply block_Ok_or_Raise; lia.
  - unfold EigenRotation.block.
    rewrite ancilla_rotation_1_Raise by first [lia|assumption]. reflexivity.
Qed.

Lemma ancilla_rotation_out_of_domain (C t : R) (n k : Z) :
  0 <= n → 0 <= k <= 2 ^ n →
  ¬ (-1 <= asin_arg C t n k <= 1)%R →
  EigenRotation._ancilla_rotation (EigenRotation.__init__ (n + 1) C t) k
  = Raise ValueError.
Proof.
  intros Hn Hk Hx. rewrite ancilla_rotation_unfold by assumption.
  unfold math_asin.
  destruct (Rle_dec (-1) (asin_arg C t n k)); [|reflexivity].
  destruct (Rle_dec (asin_arg C t n k) 1); [|reflexivity].
  exfalso. apply Hx. now split.
Qed.

Lemma decompose_out_of_domain (C t : R) (n k : Z) (qubits : list Qubit) :
  0 <= n → 0 <= k < 2 ^ n →
  ¬ (-1 <= asin_arg C t n k <= 1)%R →
  EigenRotation._decompose_ (EigenRotation.__init__ (n + 1) C t) qubits
  = Raise ValueError.
Proof.
  intros Hn Hk Hx. unfold EigenRotation._decompose_. rewrite er_N_init by lia.
  apply (for_yield_Raise _ _ k).
  - now apply elem_of_range.
  - intros k' Hk'. apply elem_of_range in Hk'. now apply block_Ok_or_Raise.
  - unfold EigenRotation.block.
    rewrite ancilla_rotation_out_of_domain by first [lia|assumption].
    reflexivity.
Qed.




(** ** The state monad *)

Lemma M_bind_eq {A B} (m : M A) (f : A → M B) (w w' : World) (a : A) :
  m w = (a, w') → (m ≫= f) w = f a w'.
Proof. intros H. unfold mbind, M_bind. now rewrite H. Qed.

(** One step of a computation in [M], by an equation of [M_steps]. *)
Ltac step := erewrite M_bind_eq by (solve [eauto 2 with M_steps nocore]).

Lemma M_ret_eq {A} (a : A) (w : World) : (mret a : M A) w = (a, w).
Proof. reflexivity. Qed.

(** ** HamiltonianSimulation *)

Lemma HamiltonianSimulation_init (A : Matrix) (t exponent : R) (w : World) :
  HamiltonianSimulation.__init__ A t exponent w
  = (hs_value (ext w) A t exponent, log_eigh A w).
Proof.
  unfold HamiltonianSimulation.__init__, hs_value, mbind, M_bind, eigh.
  destruct (np_linalg_eigh (ext w) A) as [ws vs]. reflexivity.
Qed.

Lemma hs_value_fields (e : External) (A : Matrix) (t exponent : R) :
  hs_A (hs_value e A t exponent) = A
  ∧ hs_t (hs_value e A t exponent) = t
  ∧ hs_exponent (hs_value e A t exponent) = exponent.
Proof. unfold hs_value. destruct (np_linalg_eigh e A). auto. Qed.

Lemma hs_value_eigen_components (e : External) (A : Matrix) (t e1 e2 : R) :
  hs_eigen_components (hs_value e A t e1) = hs_eigen_components (hs_value e A t e2).
Proof. unfold hs_value. destruct (np_linalg_eigh e A). reflexivity. Qed.

(** C1, as the code has it: [_with_exponent] builds a new gate from the
    stored [A] and [t], which calls [np.linalg.eigh] once more; nothing
    is cached.  The eigendecomposition being a function of [A], the new
    gate has the eigen components (phase angles and projectors) of the
    original, the same [A] and [t], and the new exponent. *)
Theorem C1_with_exponent_recomputes (A : Matrix) (t e0 e1 : R) (w : World) :
  let '(gate, w1) := HamiltonianSimulation.__init__ A t e0 w in
  let '(gate', w2) := HamiltonianSimulation._with_exponent gate e1 w1 in
  HamiltonianSimulation._eigen_components gate'
  = HamiltonianSimulation._eigen_components gate
  ∧ hs_A gate' = A ∧ hs_t gate' = t ∧ hs_exponent gate' = e1
  ∧ eigh_calls w1 = eigh_calls w ++ [A]
  ∧ eigh_calls w2 = eigh_calls w1 ++ [A]
  ∧ heap w2 = heap w1 ∧ engine_calls w2 = engine_calls w1.
Proof.
  rewrite HamiltonianSimulation_init.
  unfold HamiltonianSimulation._with_exponent.
  rewrite HamiltonianSimulation_init.
  destruct (hs_value_fields (ext w) A t e0) as (-> & -> & _).
  destruct (hs_value_fields (ext w) A t e1) as (HA & Ht & He).
  unfold HamiltonianSimulation._eigen_components.
  repeat split; try assumption.
  apply hs_value_eigen_components.
Qed.

(** C1, as stated, fails: building the gate for diag(1, 4) calls the
    eigendecomposition once, and re-exponentiating it calls it again. *)
Lemma C1_counterexample :
  let '(gate, w1) := HamiltonianSimulation.__init__ example_A 1 1 example_world in
  let '(gate', w2) := HamiltonianSimulation._with_exponent gate 2 w1 in
  eigh_calls w1 = [example_A]
  ∧ eigh_calls w2 = [example_A; example_A]
  ∧ eigh_calls w2 ≠ eigh_calls w1.
Proof.
  rewrite HamiltonianSimulation_init.
  unfold HamiltonianSimulation._with_exponent.
  rewrite HamiltonianSimulation_init.
  destruct (hs_value_fields (ext example_world) example_A 1 1) as (-> & _).
  repeat split. cbn. discriminate.
Qed.

Lemma EigenGate_pow_eq (hs : HamiltonianSimulation_obj) (p : Z) (w : World) :
  EigenGate_pow hs p w
  = (HamiltonianSimulationGate
       (hs_value (ext w) (hs_A hs) (hs_t hs) (hs_exponent hs * IZR p)),
     log_eigh (hs_A hs) w).
Proof.
  unfold EigenGate_pow, HamiltonianSimulation._with_exponent.
  erewrite M_bind_eq by apply HamiltonianSimulation_init. reflexivity.
Qed.

(** ** Inverses of gates: the eigendecompositions they compute *)

Lemma log_matrices_nil (w : World) : log_matrices [] w = w.
Proof. destruct w. unfold log_matrices. cbn. now rewrite app_nil_r. Qed.

Lemma log_matrices_app (a b : list Matrix) (w : World) :
  log_matrices b (log_matrices a w) = log_matrices (a ++ b) w.
Proof. unfold log_matrices. cbn. now rewrite app_assoc. Qed.

Lemma for_each_log {A} (f : A → list Matrix) (body : A → M unit)
  (xs : list A) (w : World) :
  (∀ x w, body x w = (tt, log_matrices (f x) w)) →
  for_each xs body w = (tt, log_matrices (flat_map f xs) w).
Proof.
  intros Hbody. revert w. induction xs as [|x xs IH]; intros w.
  - cbn [for_each flat_map]. now rewrite M_ret_eq, log_matrices_nil.
  - cbn [for_each flat_map]. erewrite M_bind_eq by apply Hbody.
    now rewrite IH, log_matrices_app.
Qed.

Lemma flat_map_nil {A B} (f : A → list B) (l : list A) :
  (∀ x, x ∈ l → f x = []) → flat_map f l = [].
Proof.
  induction l as [|x l IH]; intros Hf; [reflexivity|].
  cbn [flat_map]. rewrite Hf by constructor. apply IH.
  intros y Hy. apply Hf. now constructor.
Qed.

Lemma flat_map_singletons {A B} (f : A → list B) (b : B) (l : list A) :
  (∀ x, x ∈ l → f x = [b]) → flat_map f l = replicate (length l) b.
Proof.
  induction l as [|x l IH]; intros Hf; [reflexivity|].
  cbn [flat_map length replicate]. rewrite Hf by constructor. cbn [app].
  f_equal. apply IH. intros y Hy. apply Hf. now constructor.
Qed.

Lemma eigen_gate_inverse_eq (g : Gate) (w : World) :
  eigen_gate_inverse g w = (tt, log_matrices (eigen_gate_eighs g) w).
Proof.
  induction g; cbn [eigen_gate_inverse eigen_gate_eighs];
    try (now rewrite M_ret_eq, log_matrices_nil); [assumption|].
  erewrite M_bind_eq by apply EigenGate_pow_eq. reflexivity.
Qed.

Lemma kickback_loop_log (hs : HamiltonianSimulation_obj) (memory : Qubit)
  (qubits : list Qubit) (i : Z) (w : World) :
  ∃ ops,
    PhaseKickback.kickback_loop (EigenGate_pow hs) memory i qubits w
    = (ops, log_matrices (replicate (length qubits) (hs_A hs)) w)
    ∧ length ops = length qubits
    ∧ ∀ op, op ∈ ops → eigen_gate_eighs (op_gate op) = [hs_A hs].
Proof.
  revert i w. induction qubits as [|q qubits IH]; intros i w.
  - exists []. cbn [PhaseKickback.kickback_loop length replicate].
    rewrite M_ret_eq, log_matrices_nil. split; [reflexivity|].
    split; [reflexivity|]. intros op Hop. now apply elem_of_nil in Hop.
  - destruct (IH (i + 1) (log_eigh (hs_A hs) w)) as (ops & Hloop & Hlen & Hops).
    eexists. cbn [PhaseKickback.kickback_loop].
    erewrite M_bind_eq by apply EigenGate_pow_eq.
    erewrite M_bind_eq by exact Hloop. rewrite M_ret_eq.
    split; [|split].
    + f_equal. change (log_eigh (hs_A hs) w) with (log_matrices [hs_A hs] w).
      now rewrite log_matrices_app.
    + cbn [length]. now rewrite Hlen.
    + intros op Hop. apply elem_of_cons in Hop as [->|Hop]; [|now apply Hops].
      cbn [on op_gate eigen_gate_eighs].
      now destruct (hs_value_fields (ext w) (hs_A hs) (hs_t hs)
                      (hs_exponent hs * IZR (2 ^ i))) as (-> & _).
Qed.

Lemma line_qubits_snoc (n : Z) :
  0 <= n → line_qubits (n + 1) = line_qubits n ++ [LineQubit n].
Proof.
  intros Hn. unfold line_qubits. now rewrite range_succ, map_app by lia.
Qed.

Lemma length_line_qubits (n : Z) : length (line_qubits n) = Z.to_nat n.
Proof. unfold line_qubits. now rewrite length_map, range_length. Qed.

Lemma kickback_inverse_eq (num_qubits : Z) (U : Gate) (w : World) :
  kickback_inverse num_qubits U w
  = (tt, log_matrices (kickback_eighs num_qubits U) w).
Proof.
  unfold kickback_inverse, kickback_eighs.
  destruct U; try (now rewrite M_ret_eq, log_matrices_nil).
  destruct (Z.le_gt_cases num_qubits 0) as [Hle|Hgt].
  - unfold line_qubits, range, PhaseKickback._decompose_.
    replace (Z.to_nat num_qubits) with 0%nat by lia.
    replace (Z.to_nat (num_qubits - 1)) with 0%nat by lia.
    cbn. now rewrite log_matrices_nil.
  - assert (Hlq : line_qubits num_qubits
                  = line_qubits (num_qubits - 1) ++ [LineQubit (num_qubits - 1)])
      by (rewrite <- line_qubits_snoc by lia; f_equal; lia).
    rewrite Hlq. unfold PhaseKickback._decompose_.
    rewrite last_snoc, removelast_last.
    destruct (kickback_loop_log self (LineQubit (num_qubits - 1))
                (line_qubits (num_qubits - 1)) 0 w) as (ops & Hloop & Hlen & Hops).
    erewrite M_bind_eq by exact Hloop.
    rewrite (for_each_log (fun op => eigen_gate_eighs (op_gate op)))
      by (intros op w'; apply eigen_gate_inverse_eq).
    rewrite (flat_map_singletons _ (hs_A self)).
    + rewrite log_matrices_app, length_rev, Hlen, length_line_qubits.
      rewrite <- replicate_add. do 3 f_equal. lia.
    + intros op Hop. apply Hops.
      now rewrite rev_reverse, elem_of_reverse in Hop.
Qed.

Lemma estimation_inverse_eq (num_qubits : Z) (U : Gate) (w : World) :
  estimation_inverse num_qubits U w
  = (tt, log_matrices (kickback_eighs num_qubits U) w).
Proof.
  unfold estimation_inverse.
  rewrite (for_each_log
             (fun op => match op_gate op with
                        | PhaseKickbackGate n U' => kickback_eighs n U'
                        | g => eigen_gate_eighs g
                        end)).
  - unfold PhaseEstimation._decompose_.
    rewrite rev_app_distr. cbn [rev app flat_map on op_inverse op_gate
                                gate_inverse eigen_gate_eighs].
    rewrite flat_map_nil; [now rewrite app_nil_r|].
    intros op Hop. rewrite rev_reverse, elem_of_reverse in Hop.
    apply list_elem_of_fmap in Hop as (q & -> & _). reflexivity.
  - intros [g qs] w'. cbn [op_gate].
    destruct g; try apply kickback_inverse_eq;
      match goal with |- eigen_gate_inverse ?g _ = _ =>
        apply (eigen_gate_inverse_eq g) end.
Qed.

Lemma pow_m1_effects_eq (g : Gate) (w : World) :
  pow_m1_effects g w = (tt, log_matrices (pow_m1_eighs g) w).
Proof.
  destruct g; cbn [pow_m1_effects pow_m1_eighs];
    try apply estimation_inverse_eq; try apply kickback_inverse_eq;
    match goal with |- eigen_gate_inverse ?g _ = _ =>
      apply (eigen_gate_inverse_eq g) end.
Qed.

Lemma op_pow_m1_set_heap (op : Operation) (H : list Circuit) (w : World) :
  op_pow_m1 op (set_heap H w)
  = (op_inverse op, set_heap H (log_matrices (pow_m1_eighs (op_gate op)) w)).
Proof.
  unfold op_pow_m1. erewrite M_bind_eq by apply pow_m1_effects_eq.
  reflexivity.
Qed.

Lemma circuit_effects_eq (c : Circuit) (w : World) :
  for_each (rev c) (fun op => pow_m1_effects (op_gate op)) w
  = (tt, log_matrices (circuit_eighs c) w).
Proof.
  unfold circuit_eighs.
  apply (for_each_log (fun op => pow_m1_eighs (op_gate op))).
  intros op w'. apply pow_m1_effects_eq.
Qed.

(** ** The circuit store *)

Lemma contents_set_heap (H : list Circuit) (w : World) (c : CircuitRef) :
  contents (set_heap H w) c = default [] (H !! c).
Proof. reflexivity. Qed.

Lemma heap_lookup_snoc (h : list Circuit) (c : Circuit) :
  default [] ((h ++ [c]) !! length h) = c.
Proof. now rewrite list_lookup_middle. Qed.

Lemma heap_insert_snoc (h : list Circuit) (c c' : Circuit) :
  <[length h := c']> (h ++ [c]) = h ++ [c'].
Proof.
  rewrite insert_app_r_alt by lia. now rewrite Nat.sub_diag.
Qed.

Lemma new_circuit_set_heap (H : list Circuit) (w : World) :
  new_circuit (set_heap H w) = (length H, set_heap (H ++ [[]]) w).
Proof. reflexivity. Qed.

Lemma circuit_append_set_heap (c : CircuitRef) (ops : list Operation)
  (H : list Circuit) (w : World) :
  circuit_append c ops (set_heap H w)
  = (tt, set_heap (<[c := default [] (H !! c) ++ ops]> H) w).
Proof. reflexivity. Qed.

Lemma circuit_iadd_set_heap (c other : CircuitRef) (H : list Circuit) (w : World) :
  circuit_iadd c other (set_heap H w)
  = (tt, set_heap (<[c := default [] (H !! c) ++ default [] (H !! other)]> H) w).
Proof. reflexivity. Qed.

Lemma circuit_pow_m1_set_heap (c : CircuitRef) (H : list Circuit) (w : World) :
  circuit_pow_m1 c (set_heap H w)
  = (length H,
     set_heap (H ++ [circuit_inverse (default [] (H !! c))])
       (log_matrices (circuit_eighs (default [] (H !! c))) w)).
Proof.
  unfold circuit_pow_m1. rewrite contents_set_heap, circuit_effects_eq.
  reflexivity.
Qed.

Lemma set_heap_heap (w : World) : set_heap (heap w) w = w.
Proof. now destruct w. Qed.

Lemma log_eigh_set_heap (A : Matrix) (H : list Circuit) (w : World) :
  log_eigh A (set_heap H w) = set_heap H (log_eigh A w).
Proof. reflexivity. Qed.

#[global] Hint Resolve new_circuit_set_heap | 0 : M_steps.
#[global] Hint Resolve circuit_iadd_set_heap | 0 : M_steps.
#[global] Hint Resolve circuit_append_set_heap | 1 : M_steps.
#[global] Hint Resolve circuit_pow_m1_set_heap | 0 : M_steps.
#[global] Hint Resolve op_pow_m1_set_heap | 0 : M_steps.
#[global] Hint Resolve HamiltonianSimulation_init | 0 : M_steps.

(** ** HHLAlgorithm: the circuits *)

Lemma hhl_circuit_set_heap (self : HHLAlgorithm.obj) (H : list Circuit) (w : World) :
  HHLAlgorithm.hhl_circuit self (set_heap H w)
  = (length H,
     set_heap (H ++ [build_base_circuit (ext w) self])
       (log_matrices (base_eighs self) w)).
Proof.
  unfold HHLAlgorithm.hhl_circuit.
  step. step. rewrite log_eigh_set_heap. step. step. step.
  rewrite M_ret_eq, !heap_insert_snoc, !heap_lookup_snoc.
  cbn [on op_gate pow_m1_eighs kickback_eighs ext set_heap].
  destruct (hs_value_fields (ext w)
              (HHLAlgorithm.hhl_A self) (HHLAlgorithm.hhl_t self) 1)
    as (-> & _).
  change (log_eigh (HHLAlgorithm.hhl_A self) w)
    with (log_matrices [HHLAlgorithm.hhl_A self] w).
  rewrite log_matrices_app. unfold base_eighs.
  replace (HHLAlgorithm.hhl_register_size self + 1 - 1)
    with (HHLAlgorithm.hhl_register_size self) by lia.
  reflexivity.
Qed.

Lemma hhl_circuit_eq (self : HHLAlgorithm.obj) (w : World) :
  HHLAlgorithm.hhl_circuit self w
  = (length (heap w),
     set_heap (heap w ++ [build_base_circuit (ext w) self])
       (log_matrices (base_eighs self) w)).
Proof.
  rewrite <- (set_heap_heap w) at 1. apply hhl_circuit_set_heap.
Qed.

Lemma heap_lookup_off (H l : list Circuit) (k : nat) :
  (H ++ l) !! (length H + k)%nat = l !! k.
Proof. rewrite lookup_app_r by lia. f_equal. lia. Qed.

Lemma heap_lookup_off0 (H l : list Circuit) : (H ++ l) !! length H = l !! 0%nat.
Proof. rewrite <- (heap_lookup_off H l 0). f_equal. lia. Qed.

Lemma heap_insert_off (H l : list Circuit) (k : nat) (c : Circuit) :
  <[(length H + k)%nat := c]> (H ++ l) = H ++ <[k := c]> l.
Proof. rewrite insert_app_r_alt by lia. do 2 f_equal. lia. Qed.

Lemma measure_circuit_set_heap (self : HHLAlgorithm.obj) (c : CircuitRef)
  (H : list Circuit) (w : World) :
  HHLAlgorithm.measure_circuit self c (set_heap H w)
  = (c, set_heap (<[c := default [] (H !! c) ++ measurement_ops self]> H) w).
Proof.
  unfold HHLAlgorithm.measure_circuit. step. step. rewrite M_ret_eq.
  do 2 f_equal.
  destruct (decide (c < length H)%nat) as [Hlt|Hge].
  - rewrite list_lookup_insert_eq, list_insert_insert_eq by assumption.
    simpl. now rewrite <- app_assoc.
  - rewrite !list_insert_ge
      by (rewrite ?length_insert; unfold Circuit in *; lia).
    reflexivity.
Qed.

Lemma diffusion_operator_set_heap (self : HHLAlgorithm.obj)
  (H : list Circuit) (w : World) :
  HHLAlgorithm.diffusion_operator self (set_heap H w)
  = (length H, set_heap (H ++ [build_diffusion_operator self]) w).
Proof.
  unfold HHLAlgorithm.diffusion_operator. step. step. step. step.
  rewrite M_ret_eq, !heap_insert_snoc, !heap_lookup_snoc.
  unfold build_diffusion_operator. simpl. now rewrite <- !app_assoc.
Qed.

Lemma heap_at0 (H l : list Circuit) (a : Circuit) :
  default [] ((H ++ a :: l) !! length H) = a.
Proof. now rewrite heap_lookup_off0. Qed.

Lemma heap_at1 (H l : list Circuit) (a b : Circuit) :
  default [] ((H ++ a :: b :: l) !! (length H + 1)%nat) = b.
Proof. now rewrite heap_lookup_off. Qed.

Lemma heap_at2 (H l : list Circuit) (a b c : Circuit) :
  default [] ((H ++ a :: b :: c :: l) !! (length H + 2)%nat) = c.
Proof. now rewrite heap_lookup_off. Qed.

Lemma heap_set1 (H l : list Circuit) (a b x : Circuit) :
  <[(length H + 1)%nat := x]> (H ++ a :: b :: l) = H ++ a :: x :: l.
Proof. now rewrite heap_insert_off. Qed.

Section Amplification.

Variables (self : HHLAlgorithm.obj) (H : list Circuit).
Variables (base diff : Circuit).

Local Abbreviation r_succ := (on cirq_Z [HHLAlgorithm.hhl_ancilla self]).
Local Abbreviation round :=
  ([r_succ] ++ circuit_inverse base ++ diff ++ base).

(** The body of the loop, for the circuits [c], [hhl_circuit] and
    [r_init] at the addresses [length H + 1], [length H] and
    [length H + 2]. *)
Local Abbreviation body :=
  (HHLAlgorithm.amplification_step (length H + 1) (length H) (length H + 2)
     r_succ).

Lemma amplification_body (cur : Circuit) (invs : list Circuit) (w : World) :
  body (set_heap (H ++ base :: cur :: diff :: invs) w)
  = (tt, set_heap (H ++ base :: (cur ++ round) :: diff
                     :: (invs ++ [circuit_inverse base]))
           (log_matrices (circuit_eighs base) w)).
Proof.
  unfold HHLAlgorithm.amplification_step.
  step. rewrite heap_at1, heap_set1.
  step. rewrite heap_at0.
  step. rewrite heap_lookup_snoc, <- app_assoc. cbn [app].
  rewrite heap_at1, heap_set1.
  step. rewrite heap_at1, heap_at2, heap_set1.
  unfold circuit_iadd, circuit_append, contents. cbn [heap set_heap].
  rewrite heap_at1, heap_at0, heap_set1.
  now rewrite <- !app_assoc.
Qed.

Lemma amplification_loop {A} (xs : list A) (cur : Circuit) (invs : list Circuit)
  (w : World) :
  for_each xs (fun _ => body) (set_heap (H ++ base :: cur :: diff :: invs) w)
  = (tt, set_heap
           (H ++ base :: (cur ++ concat (replicate (length xs) round)) :: diff
              :: (invs ++ replicate (length xs) (circuit_inverse base)))
           (log_matrices
              (concat (replicate (length xs) (circuit_eighs base))) w)).
Proof.
  revert cur invs w. induction xs as [|x xs IH]; intros cur invs w.
  - cbn [for_each length replicate concat].
    now rewrite M_ret_eq, !app_nil_r, log_matrices_nil.
  - cbn [for_each length replicate concat].
    erewrite M_bind_eq by apply amplification_body.
    rewrite IH, log_matrices_app. now rewrite <- !app_assoc.
Qed.

End Amplification.

Lemma amplitude_amplification_set_heap (self : HHLAlgorithm.obj)
  (num_iterations : Z) (H : list Circuit) (w : World) :
  let n := Z.to_nat num_iterations in
  let base := build_base_circuit (ext w) self in
  HHLAlgorithm.amplitude_amplification self num_iterations (set_heap H w)
  = (S (length H),
     set_heap
       (H ++ base :: build_amplified_circuit (ext w) self n
          :: build_diffusion_operator self
          :: replicate n (circuit_inverse base))
       (log_matrices (amplified_eighs (ext w) self n) w)).
Proof.
  intros n base. unfold HHLAlgorithm.amplitude_amplification.
  erewrite M_bind_eq by apply hhl_circuit_set_heap.
  step. step. rewrite heap_insert_snoc, heap_lookup_snoc.
  rewrite <- !app_assoc. cbn [app]. rewrite heap_at0.
  erewrite M_bind_eq by apply diffusion_operator_set_heap.
  rewrite <- app_assoc. cbn [app].
  rewrite !length_app. cbn [length].
  erewrite M_bind_eq by apply amplification_loop.
  rewrite M_ret_eq, range_length, log_matrices_app. cbn [ext log_matrices app].
  unfold build_amplified_circuit, amplification_round, amplified_eighs.
  f_equal. lia.
Qed.

Lemma amplitude_amplification_eq (self : HHLAlgorithm.obj)
  (num_iterations : Z) (w : World) :
  let n := Z.to_nat num_iterations in
  let base := build_base_circuit (ext w) self in
  HHLAlgorithm.amplitude_amplification self num_iterations w
  = (S (length (heap w)),
     set_heap
       (heap w ++ base :: build_amplified_circuit (ext w) self n
          :: build_diffusion_operator self
          :: replicate n (circuit_inverse base))
       (log_matrices (amplified_eighs (ext w) self n) w)).
Proof.
  intros n base. rewrite <- (set_heap_heap w) at 1.
  apply amplitude_amplification_set_heap.
Qed.

Lemma diffusion_operator_eq (self : HHLAlgorithm.obj) (w : World) :
  HHLAlgorithm.diffusion_operator self w
  = (length (heap w), set_heap (heap w ++ [build_diffusion_operator self]) w).
Proof.
  rewrite <- (set_heap_heap w) at 1. apply diffusion_operator_set_heap.
Qed.

Lemma measure_circuit_eq (self : HHLAlgorithm.obj) (c : CircuitRef) (w : World) :
  HHLAlgorithm.measure_circuit self c w
  = (c, set_heap (<[c := contents w c ++ measurement_ops self]> (heap w)) w).
Proof.
  rewrite <- (set_heap_heap w) at 1. apply measure_circuit_set_heap.
Qed.

Lemma no_measurement_prep (gates : list Gate) (q : Qubit) :
  Forall (fun g => is_measurement_gate g = false) gates →
  Forall (fun op => is_measurement op = false) (map (fun g => on g [q]) gates).
Proof.
  intros Hg. apply Forall_fmap. eapply Forall_impl; [exact Hg|].
  intros g Hm. exact Hm.
Qed.

(** C4: [hhl_circuit] returns a new circuit that holds, in order, the
    input-preparation gates applied to the memory qubit, the phase
    estimation over register and memory, the eigenvalue inversion over
    register and ancilla, and the inverse of that same phase-estimation
    operation; no circuit that existed before is changed; when none of
    the preparation gates is a measurement, no operation of the circuit
    is one. *)
Theorem C4_hhl_circuit_base (self : HHLAlgorithm.obj) (w : World) :
  Forall (fun g => is_measurement_gate g = false)
    (HHLAlgorithm.hhl_input_prep_gates self) →
  let '(c, w') := HHLAlgorithm.hhl_circuit self w in
  let pe := phase_estimation_network (ext w) self in
  heap w !! c = None
  ∧ contents w' c
    = map (fun g => on g [HHLAlgorithm.hhl_memory self])
        (HHLAlgorithm.hhl_input_prep_gates self)
      ++ [pe; eigenvalue_inversion_network self; op_inverse pe]
  ∧ op_inverse pe = on (InverseGate (op_gate pe)) (op_qubits pe)
  ∧ (∀ c', (c' < length (heap w))%nat → heap w' !! c' = heap w !! c')
  ∧ Forall (fun op => is_measurement op = false) (contents w' c).
Proof.
  intros Hprep. rewrite hhl_circuit_eq. cbv zeta.
  rewrite contents_set_heap, heap_lookup_snoc.
  split; [apply lookup_ge_None_2; lia|].
  split; [reflexivity|].
  split; [reflexivity|].
  split.
  - intros c' Hc'. cbn [heap set_heap]. now rewrite lookup_app_l.
  - unfold build_base_circuit. apply Forall_app. split.
    + now apply no_measurement_prep.
    + repeat constructor.
Qed.

Lemma C4_hhl_circuit_base_witness :
  let self := HHLAlgorithm.__init__ example_A 1 1 2 [cirq_rx 1; cirq_rz 1] in
  Forall (fun g => is_measurement_gate g = false)
    (HHLAlgorithm.hhl_input_prep_gates self)
  ∧ let '(c, w') := HHLAlgorithm.hhl_circuit self example_world in
    length (contents w' c) = 5%nat
    ∧ Forall (fun op => is_measurement op = false) (contents w' c).
Proof.
  intros self.
  assert (Hprep : Forall (fun g => is_measurement_gate g = false)
                    (HHLAlgorithm.hhl_input_prep_gates self))
    by (repeat constructor).
  split; [exact Hprep|].
  pose proof (C4_hhl_circuit_base self example_world Hprep) as Hc.
  destruct (HHLAlgorithm.hhl_circuit self example_world) as [c w'].
  destruct Hc as (_ & Hops & _ & _ & Hm).
  split; [now rewrite Hops|exact Hm].
Defined.


(** C10: [measure_circuit] returns the circuit object it was given and
    changes it in place: the operations it held stay, in their order,
    followed by the measurement of the ancilla under key 'a', the
    parametrized PhasedXPowGate on the memory qubit and the measurement
    of the memory qubit under key 'm'.  No circuit is created and no
    other circuit changes. *)
Theorem C10_measure_circuit_in_place (self : HHLAlgorithm.obj)
  (circuit : CircuitRef) (old : Circuit) (w : World) :
  heap w !! circuit = Some old →
  let '(r, w') := HHLAlgorithm.measure_circuit self circuit w in
  r = circuit
  ∧ heap w' !! circuit
    = Some (old
            ++ [ cirq_measure (HHLAlgorithm.hhl_ancilla self) "a";
                 on (PhasedXPowGate (Symbol "exponent") (Symbol "phase_exponent"))
                    [HHLAlgorithm.hhl_memory self];
                 cirq_measure (HHLAlgorithm.hhl_memory self) "m" ])
  ∧ length (heap w') = length (heap w)
  ∧ (∀ c', c' ≠ circuit → heap w' !! c' = heap w !! c')
  ∧ eigh_calls w' = eigh_calls w
  ∧ engine_calls w' = engine_calls w.
Proof.
  intros Hold. rewrite measure_circuit_eq. unfold contents, Circuit in *.
  rewrite Hold.
  pose proof (lookup_lt_Some _ _ _ Hold) as Hlt.
  cbn [heap set_heap eigh_calls engine_calls default from_option id].
  split; [reflexivity|].
  split; [now rewrite list_lookup_insert_eq|].
  split; [now rewrite length_insert|].
  split; [|split; reflexivity].
  intros c' Hne. now rewrite list_lookup_insert_ne.
Qed.

Lemma C10_measure_circuit_in_place_witness :
  let self := HHLAlgorithm.__init__ example_A 1 1 2 [] in
  let w := set_heap [[on cirq_H [LineQubit 1]]] example_world in
  heap w !! 0%nat = Some [on cirq_H [LineQubit 1]]
  ∧ let '(r, w') := HHLAlgorithm.measure_circuit self 0%nat w in
    r = 0%nat
    ∧ heap w'
      = [[ on cirq_H [LineQubit 1];
           cirq_measure (LineQubit 0) "a";
           on (PhasedXPowGate (Symbol "exponent") (Symbol "phase_exponent"))
              [LineQubit 3];
           cirq_measure (LineQubit 3) "m" ]].
Proof.
  intros self w.
  assert (Hold : heap w !! 0%nat = Some [on cirq_H [LineQubit 1]]) by reflexivity.
  split; [exact Hold|].
  pose proof (C10_measure_circuit_in_place self 0%nat _ w Hold) as Hc.
  destruct (HHLAlgorithm.measure_circuit self 0%nat w) as [r w'].
  destruct Hc as (Hr & Hops & Hlen & _).
  split; [exact Hr|].
  destruct (heap w') as [|c0 [|c1 rest]]; simpl in Hlen; try discriminate.
  simpl in Hops. now injection Hops as ->.
Defined.

(** ** HHLAlgorithm: printing the results *)

Lemma print_loop_nonzero (items : list (string * list Z * Z))
  (success_probability : list Q) (out : list Line) :
  Forall (fun item => snd item ≠ 0) items →
  HHLAlgorithm.print_loop items success_probability out
  = (out ++ map line_of items,
     Ok (success_probability ++ map success_probability_of items)).
Proof.
  revert success_probability out.
  induction items as [|[[label result] runs] items IH];
    intros success_probability out Hruns.
  - simpl. now rewrite !app_nil_r.
  - apply Forall_cons in Hruns as [Hr Hruns]. simpl in Hr.
    cbn [HHLAlgorithm.print_loop]. unfold int_truediv.
    destruct (Z.eqb_spec runs 0) as [|_]; [contradiction|].
    rewrite IH by assumption. cbn [map]. rewrite <- !app_assoc.
    f_equal. f_equal. unfold line_of, np_mean, one_minus_twice.
    now destruct result.
Qed.

Lemma print_loop_zero_runs (label : string) (result : list Z)
  (rest : list (string * list Z * Z)) (success_probability : list Q)
  (out : list Line) :
  HHLAlgorithm.print_loop ((label, result, 0) :: rest) success_probability out
  = (out ++ [line_of (label, result, 0)], Raise ZeroDivisionError).
Proof.
  cbn [HHLAlgorithm.print_loop]. unfold int_truediv. simpl.
  do 2 f_equal. unfold line_of, np_mean, one_minus_twice. now destruct result.
Qed.

Lemma Forall_zip_snd {A B} (P : B → Prop) (l1 : list A) (l2 : list B) :
  Forall P l2 → Forall (fun x => P (snd x)) (zip l1 l2).
Proof.
  intros H2. revert l1. induction H2 as [|b l2 Hb H2 IH]; intros [|a l1];
    simpl; constructor; auto.
Qed.

(** C7, as the code has it: when every run count is non-zero,
    [print_results] prints one line per observable and returns; the
    expectation of an observable with zero surviving shots is NaN, which
    comes from [np.mean] of an empty array and not from a guard of the
    example, the expectation of every other observable is 1 − 2·mean,
    and every observable is processed whatever the others hold. *)
Theorem C7_zero_survivors_nan (self : HHLAlgorithm.obj)
  (results : list (list Z)) (num_runs : list Z) :
  Forall (fun runs => runs ≠ 0) num_runs →
  let items := zip (zip ["X"; "Y"; "Z"]%string results) num_runs in
  HHLAlgorithm.print_results self results num_runs
  = (map line_of items, Ok (np_mean_floats (map success_probability_of items)))
  ∧ ∀ label result runs,
      (label, result, runs) ∈ items →
      (line_expectation (line_of (label, result, runs)) = NaN ↔ result = []).
Proof.
  intros Hruns items. split.
  - unfold HHLAlgorithm.print_results. fold items.
    rewrite print_loop_nonzero
      by (unfold items; apply (Forall_zip_snd (fun runs => runs ≠ 0)), Hruns).
    reflexivity.
  - intros label result runs _. simpl. destruct result; split; congruence.
Qed.

Lemma C7_zero_survivors_nan_witness :
  let self := HHLAlgorithm.__init__ example_A 1 1 2 [] in
  Forall (fun runs => runs ≠ 0) [5; 5; 5]
  ∧ fst (HHLAlgorithm.print_results self [[]; [0; 1]; [1]] [5; 5; 5])
    = [ {| line_label := "X"; line_expectation := NaN;
           line_num_estimates := 0; line_runs := 5 |};
        line_of ("Y"%string, [0; 1], 5);
        line_of ("Z"%string, [1], 5) ].
Proof.
  intros self.
  assert (Hruns : Forall (fun runs => runs ≠ 0) [5; 5; 5])
    by (repeat constructor; discriminate).
  split; [exact Hruns|].
  destruct (C7_zero_survivors_nan self [[]; [0; 1]; [1]] [5; 5; 5] Hruns)
    as [Heq _].
  rewrite Heq. reflexivity.
Defined.

(** ** HHLAlgorithm: sampling without amplification *)

Lemma simulate_without_amplification_eq (self : HHLAlgorithm.obj)
  (total_runs : Z) (w : World) :
  let circuit := build_base_circuit (ext w) self ++ measurement_ops self in
  let results :=
    simulator_run_sweep (ext w) (length (engine_calls w)) circuit
      HHLAlgorithm.params total_runs in
  HHLAlgorithm.simulate_without_amplification self total_runs w
  = (map surviving results,
     log_engine {| call_circuit := circuit;
                   call_params := HHLAlgorithm.params;
                   call_repetitions := total_runs;
                   call_results := results |}
       (set_heap (heap w ++ [circuit]) (log_matrices (base_eighs self) w))).
Proof.
  intros circuit results. unfold HHLAlgorithm.simulate_without_amplification.
  erewrite M_bind_eq by apply hhl_circuit_eq.
  erewrite M_bind_eq by apply measure_circuit_set_heap.
  rewrite heap_lookup_snoc, heap_insert_snoc.
  unfold run_sweep, mbind, M_bind, contents. cbn [heap set_heap].
  rewrite heap_lookup_snoc. reflexivity.
Qed.

(** C8, as the code has it: [HHLAlgorithm] validates nothing.  For
    [register_size < 1] the constructor returns an object with an empty
    register that stores [register_size] as given, and for
    [register_size = 0] [simulate_without_amplification] builds the
    circuit and makes its call of the execution engine, with no error
    reported before it. *)
Theorem C8_no_eager_validation (A : Matrix) (C t : R) (register_size : Z)
  (input_prep_gates : list Gate) (total_runs : Z) (w : World) :
  register_size < 1 →
  let self := HHLAlgorithm.__init__ A C t register_size input_prep_gates in
  HHLAlgorithm.hhl_register self = []
  ∧ HHLAlgorithm.hhl_register_size self = register_size
  ∧ (register_size = 0 →
     let '(results, w') :=
       HHLAlgorithm.simulate_without_amplification self total_runs w in
     ∃ call,
       engine_calls w' = engine_calls w ++ [call]
       ∧ call_repetitions call = total_runs
       ∧ call_params call = HHLAlgorithm.params
       ∧ call_circuit call
         = build_base_circuit (ext w) self ++ measurement_ops self
       ∧ results = map surviving (call_results call)).
Proof.
  intros Hrs self. split; [|split].
  - unfold self, HHLAlgorithm.__init__, range. simpl.
    replace (Z.to_nat register_size) with 0%nat by lia. reflexivity.
  - reflexivity.
  - intros _. rewrite simulate_without_amplification_eq. cbv zeta.
    eexists. cbn [engine_calls log_engine set_heap log_matrices].
    split; [reflexivity|]. cbn [call_repetitions call_params call_circuit call_results].
    repeat split; reflexivity.
Qed.

Lemma C8_no_eager_validation_witness :
  let self := HHLAlgorithm.__init__ example_A 1 1 0 [] in
  0 < 1
  ∧ HHLAlgorithm.hhl_register self = []
  ∧ let '(results, w') :=
      HHLAlgorithm.simulate_without_amplification self 5 example_world in
    ∃ call, engine_calls w' = engine_calls example_world ++ [call].
Proof.
  intros self.
  assert (Hrs : 0 < 1) by lia.
  split; [exact Hrs|].
  destruct (C8_no_eager_validation example_A 1 1 0 [] 5 example_world Hrs)
    as (Hreg & _ & Hrun).
  split; [exact Hreg|].
  specialize (Hrun eq_refl). fold self in Hrun.
  destruct (HHLAlgorithm.simulate_without_amplification self 5 example_world)
    as [results w'].
  destruct Hrun as (call & Hcall & _). exists call. exact Hcall.
Defined.

(** C8, as stated, fails: with [register_size = 0] the constructor
    succeeds and [simulate_without_amplification] reaches the execution
    engine, which is called once and whose shots are returned. *)
Lemma C8_counterexample :
  let self := HHLAlgorithm.__init__ example_A 1 1 0 [] in
  HHLAlgorithm.hhl_register_size self < 1
  ∧ engine_calls example_world = []
  ∧ let '(results, w') :=
      HHLAlgorithm.simulate_without_amplification self 2 example_world in
    length (engine_calls w') = 1%nat
    ∧ results = [[0; 0]; [0; 0]; [0; 0]].
Proof.
  intros self. split; [simpl; lia|]. split; [reflexivity|].
  rewrite simulate_without_amplification_eq. cbv zeta.
  split; reflexivity.
Qed.

(** ** HHLAlgorithm: sampling with amplification *)





Section TrialLoop.

Import HHLAlgorithm.
Variables (self : obj) (resolver : ParamResolver).


End TrialLoop.




(** C7, as stated, fails: [simulate_with_amplification(0)] returns no
    surviving shot and a run count of 0 for every observable; given
    them, [print_results] prints the line of X, with NaN, and raises
    ZeroDivisionError: Y and Z are not processed. *)
Lemma C7_counterexample :
  let self := HHLAlgorithm.__init__ example_A 1 1 2 [] in
  let '((results, num_runs), _) :=
    HHLAlgorithm.simulate_with_amplification self 0 example_world in
  results = [[]; []; []]
  ∧ num_runs = [0; 0; 0]
  ∧ HHLAlgorithm.print_results self results num_runs
    = ([ {| line_label := "X"; line_expectation := NaN;
            line_num_estimates := 0; line_runs := 0 |} ],
       Raise ZeroDivisionError).
Proof.
  intros self. lazy. repeat split.
Qed.

(** * Further properties *)

(** ** HHLAlgorithm: the qubits *)

Lemma range_NoDup (n : Z) : NoDup (range n).
Proof.
  unfold range. apply NoDup_fmap_2; [|apply NoDup_seq].
  intros a b Hab. lia.
Qed.

Lemma LineQubit_inj (x y : Z) : LineQubit x = LineQubit y → x = y.
Proof. now intros [= ->]. Qed.

Section Qubits.

Variables (A : Matrix) (C t : R) (register_size : Z) (gates : list Gate).

Local Abbreviation self := (HHLAlgorithm.__init__ A C t register_size gates).

Lemma elem_of_register (q : Qubit) :
  q ∈ HHLAlgorithm.hhl_register self
  ↔ ∃ i, q = LineQubit (i + 1) ∧ 0 <= i < register_size.
Proof.
  cbn [HHLAlgorithm.hhl_register HHLAlgorithm.__init__].
  rewrite list_elem_of_fmap. split.
  - intros (i & -> & Hi). apply elem_of_range in Hi. eauto.
  - intros (i & -> & Hi). exists i. split; [reflexivity|]. now apply elem_of_range.
Qed.

Lemma register_NoDup : NoDup (HHLAlgorithm.hhl_register self).
Proof.
  cbn [HHLAlgorithm.hhl_register HHLAlgorithm.__init__].
  apply NoDup_fmap_2; [|apply range_NoDup].
  intros a b Hab. apply LineQubit_inj in Hab. lia.
Qed.

Lemma register_length :
  length (HHLAlgorithm.hhl_register self) = Z.to_nat register_size.
Proof.
  cbn [HHLAlgorithm.hhl_register HHLAlgorithm.__init__].
  now rewrite length_map, range_length.
Qed.

Lemma ancilla_not_in_register :
  HHLAlgorithm.hhl_ancilla self ∉ HHLAlgorithm.hhl_register self.
Proof.
  intros Hin. apply elem_of_register in Hin as (i & Heq & Hi).
  apply LineQubit_inj in Heq. lia.
Qed.

Lemma memory_not_in_register :
  HHLAlgorithm.hhl_memory self ∉ HHLAlgorithm.hhl_register self.
Proof.
  intros Hin. apply elem_of_register in Hin as (i & Heq & Hi).
  apply LineQubit_inj in Heq. lia.
Qed.

Lemma all_qubits_NoDup : register_size ≠ -1 → NoDup (all_qubits self).
Proof.
  intros Hrs. unfold all_qubits. cbn [app]. apply NoDup_cons. split.
  - rewrite elem_of_app, list_elem_of_singleton. intros [Hin|Heq].
    + now apply ancilla_not_in_register.
    + apply LineQubit_inj in Heq. lia.
  - apply NoDup_app. split; [apply register_NoDup|]. split.
    + intros q Hq Hm. apply list_elem_of_singleton in Hm as ->.
      now apply memory_not_in_register in Hq.
    + apply NoDup_singleton.
Qed.

Lemma register_memory_NoDup :
  NoDup (HHLAlgorithm.hhl_register self ++ [HHLAlgorithm.hhl_memory self]).
Proof.
  apply NoDup_app. split; [apply register_NoDup|]. split.
  - intros q Hq Hm. apply list_elem_of_singleton in Hm as ->.
    now apply memory_not_in_register in Hq.
  - apply NoDup_singleton.
Qed.

Lemma register_ancilla_NoDup :
  NoDup (HHLAlgorithm.hhl_register self ++ [HHLAlgorithm.hhl_ancilla self]).
Proof.
  apply NoDup_app. split; [apply register_NoDup|]. split.
  - intros q Hq Hm. apply list_elem_of_singleton in Hm as ->.
    now apply ancilla_not_in_register in Hq.
  - apply NoDup_singleton.
Qed.

End Qubits.

(** X1: the constructor places the ancilla on line 0, the register on
    the lines 1 to [register_size], in this order, and the memory on
    line [register_size + 1].  The register has [register_size] qubits
    (none when the size is not positive), and the ancilla, the register
    qubits and the memory qubit are pairwise distinct for every
    [register_size] but -1, where the memory qubit is the ancilla. *)
Theorem X1_qubits_distinct (A : Matrix) (C t : R) (register_size : Z)
  (gates : list Gate) :
  let self := HHLAlgorithm.__init__ A C t register_size gates in
  HHLAlgorithm.hhl_ancilla self = LineQubit 0
  ∧ HHLAlgorithm.hhl_memory self = LineQubit (register_size + 1)
  ∧ length (HHLAlgorithm.hhl_register self) = Z.to_nat register_size
  ∧ (∀ i, (i < Z.to_nat register_size)%nat →
       HHLAlgorithm.hhl_register self !! i = Some (LineQubit (Z.of_nat i + 1)))
  ∧ (NoDup (all_qubits self) ↔ register_size ≠ -1)
  ∧ (HHLAlgorithm.hhl_memory self = HHLAlgorithm.hhl_ancilla self
     ↔ register_size = -1).
Proof.
  intros self. split; [reflexivity|]. split; [reflexivity|].
  split; [apply register_length|]. split; [|split; [split|split]].
  - intros i Hi. cbn [HHLAlgorithm.hhl_register HHLAlgorithm.__init__ self].
    rewrite list_lookup_fmap, range_lookup by assumption. reflexivity.
  - intros Hnd ->. unfold all_qubits in Hnd. cbn in Hnd.
    apply NoDup_cons in Hnd as [Hin _]. apply Hin. now left.
  - apply all_qubits_NoDup.
  - intros Heq. apply LineQubit_inj in Heq. lia.
  - intros ->. reflexivity.
Qed.

(** ** Well-formed operations *)




Lemma well_formed_on_each (g : Gate) (qubits : list Qubit) :
  gate_num_qubits g = 1 → Forall well_formed (on_each g qubits).
Proof.
  intros Hg. unfold on_each. apply Forall_fmap, Forall_forall.
  intros q _. split; [exact Hg|]. apply NoDup_singleton.
Qed.


Section WellFormed.

Variables (A : Matrix) (C t : R) (register_size : Z) (gates : list Gate).
Variable e : External.
Hypothesis Hrs : 0 <= register_size.
Hypothesis Hgates : Forall (fun g => gate_num_qubits g = 1) gates.

Local Abbreviation self := (HHLAlgorithm.__init__ A C t register_size gates).





End WellFormed.



(** ** EigenRotation: degenerate sizes *)

Lemma decompose_TypeError (num_qubits : Z) (C t : R) (qubits : list Qubit) :
  num_qubits < 1 →
  EigenRotation._decompose_ (EigenRotation.__init__ num_qubits C t) qubits
  = Raise TypeError.
Proof.
  intros Hn. unfold EigenRotation._decompose_, EigenRotation.__init__, pow2.
  cbn [er_N]. destruct (Z.leb_spec 0 (num_qubits - 1)); [lia|reflexivity].
Qed.

Lemma asin_arg_0_0 (C t : R) : asin_arg C t 0 0 = (C * t / (2 * PI))%R.
Proof.
  unfold asin_arg. change (2 ^ 0) with 1. cbn [Z.eqb].
  now rewrite !Rmult_1_r.
Qed.

Lemma decompose_one_qubit (C t : R) (q : Qubit) :
  (-1 <= C * t / (2 * PI) <= 1)%R →
  EigenRotation._decompose_ (EigenRotation.__init__ 1 C t) [q]
  = Ok [on (cirq_ry (2 * asin (C * t / (2 * PI)))) [q]].
Proof.
  intros Hx.
  change (EigenRotation._decompose_
            (EigenRotation.__init__ (Z.of_nat (length (@nil Qubit)) + 1) C t)
            ([] ++ [q]) = Ok [on (cirq_ry (2 * asin (C * t / (2 * PI)))) [q]]).
  rewrite decompose_Ok.
  - change (range (2 ^ Z.of_nat (length (@nil Qubit)))) with [0].
    cbn [map concat app]. unfold gray_block, gray_xs, gray_rot.
    cbn [rev x_gates app length controlled_n Nat.iter Z.of_nat].
    unfold theta_spec, theta_formula.
    change (Z.of_nat 0) with 0. change (controlled_n 0 ?g) with g.
    pose proof (asin_arg_0_0 C t) as Harg. unfold asin_arg in Harg.
    cbv zeta in Harg. now rewrite Harg.
  - intros k Hk. change (Z.of_nat (length (@nil Qubit))) with 0 in *.
    replace k with 0 by lia. now rewrite asin_arg_0_0.
Qed.

Lemma decompose_one_qubit_Raise (C t : R) (qubits : list Qubit) :
  ¬ (-1 <= C * t / (2 * PI) <= 1)%R →
  EigenRotation._decompose_ (EigenRotation.__init__ 1 C t) qubits
  = Raise ValueError.
Proof.
  intros Hx. change 1 with (0 + 1) at 1.
  apply decompose_out_of_domain with 0; [lia|simpl; lia|].
  now rewrite asin_arg_0_0.
Qed.

(** X3: the sizes below those of the example.  An [EigenRotation] of
    fewer than one qubit cannot be decomposed: [N = 2 ** (num_qubits - 1)]
    is then a float and [range(self.N)] raises TypeError.  With one
    qubit, the ancilla alone, the decomposition is the single rotation
    Ry(2·asin(C·t/(2π))) with no control and no X gate when the argument
    of the arcsine is in [[-1, 1]], and it raises ValueError when it is
    not. *)
Theorem X3_eigen_rotation_small (C t : R) (q : Qubit) :
  (∀ num_qubits qubits,
     num_qubits < 1 →
     EigenRotation._decompose_ (EigenRotation.__init__ num_qubits C t) qubits
     = Raise TypeError)
  ∧ ((-1 <= C * t / (2 * PI) <= 1)%R →
     EigenRotation._decompose_ (EigenRotation.__init__ 1 C t) [q]
     = Ok [on (cirq_ry (2 * asin (C * t / (2 * PI)))) [q]])
  ∧ (¬ (-1 <= C * t / (2 * PI) <= 1)%R →
     EigenRotation._decompose_ (EigenRotation.__init__ 1 C t) [q]
     = Raise ValueError).
Proof.
  split; [|split].
  - intros num_qubits qubits. apply decompose_TypeError.
  - apply decompose_one_qubit.
  - apply decompose_one_qubit_Raise.
Qed.

(** ** EigenRotation: the X gates of the whole network *)

Lemma length_x_gates (qs : list Qubit) (x : Z) :
  length (x_gates qs x) = ones_below (length qs) x.
Proof.
  revert x. induction qs as [|q qs IH]; intros x; [reflexivity|].
  cbn [x_gates length ones_below]. rewrite length_app, IH.
  now destruct (Z.testbit x 0).
Qed.

Lemma count_X_app (a b : list Operation) :
  count_X (a ++ b) = (count_X a + count_X b)%nat.
Proof. unfold count_X. now rewrite List.filter_app, length_app. Qed.

Lemma count_X_x_gates (qs : list Qubit) (x : Z) :
  count_X (x_gates qs x) = length (x_gates qs x).
Proof.
  revert x. induction qs as [|q qs IH]; intros x; [reflexivity|].
  cbn [x_gates]. rewrite count_X_app, length_app, IH.
  now destruct (Z.testbit x 0).
Qed.

Lemma count_X_gray_rot (C t : R) (register : list Qubit) (ancilla : Qubit)
  (k : Z) :
  count_X [gray_rot C t register ancilla k] = 0%nat.
Proof. unfold gray_rot, count_X. now destruct (length register). Qed.

Lemma ones_below_0 (m : nat) : ones_below m 0 = 0%nat.
Proof.
  induction m as [|m IH]; [reflexivity|].
  cbn [ones_below]. now rewrite Z.shiftr_0_l, IH.
Qed.

Lemma lxor_pred_bit0 (k : Z) : Z.testbit (Z.lxor k (k - 1)) 0 = true.
Proof.
  rewrite Z.lxor_spec, !Z.bit0_odd.
  replace (k - 1) with (Z.pred k) by lia. rewrite Z.odd_pred, <- Z.negb_odd.
  now destruct (Z.odd k).
Qed.

Lemma ones_below_even (m : nat) (j : Z) :
  ones_below (S m) (Z.lxor (2 * j) (2 * j - 1))
  = S (ones_below m (Z.lxor j (j - 1))).
Proof.
  cbn [ones_below]. rewrite lxor_pred_bit0, Z.shiftr_lxor.
  rewrite !Z.shiftr_div_pow2 by lia. change (2 ^ 1) with 2.
  replace (2 * j / 2) with j by (apply Z.div_unique with 0; lia).
  replace ((2 * j - 1) / 2) with (j - 1)
    by (apply Z.div_unique with 1; lia).
  reflexivity.
Qed.

Lemma ones_below_odd (m : nat) (j : Z) :
  ones_below (S m) (Z.lxor (2 * j + 1) (2 * j + 1 - 1)) = 1%nat.
Proof.
  cbn [ones_below]. rewrite lxor_pred_bit0, Z.shiftr_lxor.
  rewrite !Z.shiftr_div_pow2 by lia. change (2 ^ 1) with 2.
  replace ((2 * j + 1) / 2) with j by (apply Z.div_unique with 1; lia).
  replace ((2 * j + 1 - 1) / 2) with j
    by (apply Z.div_unique with 0; lia).
  now rewrite Z.lxor_nilpotent, ones_below_0.
Qed.

Lemma sum_even_odd (f : Z → nat) (m : nat) :
  sum_list_with f (range (2 * Z.of_nat m))
  = sum_list_with (fun j => Nat.add (f (2 * j)) (f (2 * j + 1)))
      (range (Z.of_nat m)).
Proof.
  induction m as [|m IH]; [reflexivity|].
  replace (2 * Z.of_nat (S m)) with (2 * Z.of_nat m + 1 + 1) by lia.
  replace (Z.of_nat (S m)) with (Z.of_nat m + 1) by lia.
  rewrite !range_succ by lia. rewrite !sum_list_with_app, IH.
  cbn [sum_list_with]. lia.
Qed.

Lemma sum_list_with_eq {A} (f g : A → nat) (l : list A) :
  (∀ x, f x = g x) → sum_list_with f l = sum_list_with g l.
Proof.
  intros Hfg. induction l as [|x l IH]; [reflexivity|].
  cbn [sum_list_with]. now rewrite Hfg, IH.
Qed.

Lemma sum_list_with_SS {A} (g : A → nat) (l : list A) :
  sum_list_with (fun j => S (S (g j))) l
  = (sum_list_with g l + 2 * length l)%nat.
Proof.
  induction l as [|x l IH]; [reflexivity|].
  cbn [sum_list_with length]. rewrite IH. lia.
Qed.

Lemma sum_ones_below (n : nat) :
  (sum_list_with (fun k => ones_below n (Z.lxor k (k - 1)))
     (range (2 ^ Z.of_nat n)) + 2)%nat
  = (2 ^ S n)%nat.
Proof.
  induction n as [|n IH]; [reflexivity|].
  replace (2 ^ Z.of_nat (S n)) with (2 * Z.of_nat (2 ^ n)).
  2:{ rewrite Nat2Z.inj_pow.
      replace (Z.of_nat (S n)) with (Z.of_nat n + 1) by lia.
      rewrite Z.pow_add_r by lia. change (Z.of_nat 2) with 2. lia. }
  rewrite sum_even_odd.
  rewrite (sum_list_with_eq _ (fun j => S (S (ones_below n (Z.lxor j (j - 1)))))).
  2:{ intros j. rewrite ones_below_even, ones_below_odd. lia. }
  replace (Z.of_nat (2 ^ n)) with (2 ^ Z.of_nat n)
    by (now rewrite Nat2Z.inj_pow).
  rewrite sum_list_with_SS, range_length.
  replace (Z.to_nat (2 ^ Z.of_nat n)) with (2 ^ n)%nat
    by (apply Nat2Z.inj; rewrite Z2Nat.id by (apply Z.pow_nonneg; lia);
        now rewrite Nat2Z.inj_pow).
  cbn [Nat.pow] in *. lia.
Qed.

Section WholeNetwork.

Variables (C t : R) (register : list Qubit) (ancilla : Qubit).

Local Abbreviation n := (length register).
Local Abbreviation blk := (gray_block C t register ancilla).

Lemma count_X_blocks (ks : list Z) :
  count_X (concat (map blk ks))
  = sum_list_with (fun k => ones_below n (Z.lxor k (k - 1))) ks.
Proof.
  induction ks as [|k ks IH]; [reflexivity|].
  cbn [map concat sum_list_with]. rewrite count_X_app, IH. f_equal.
  unfold gray_block, gray_xs.
  rewrite count_X_app, count_X_gray_rot, count_X_x_gates, length_x_gates.
  rewrite length_rev. lia.
Qed.

Lemma length_blocks (ks : list Z) :
  length (concat (map blk ks))
  = (sum_list_with (fun k => ones_below n (Z.lxor k (k - 1))) ks + length ks)%nat.
Proof.
  induction ks as [|k ks IH]; [reflexivity|].
  cbn [map concat sum_list_with length]. rewrite length_app, IH.
  unfold gray_block, gray_xs.
  rewrite length_app, length_x_gates, length_rev. cbn [length]. lia.
Qed.

Lemma flipped_blocks_notin (ks : list Z) (q : Qubit) :
  q ∉ register → flipped (concat (map blk ks)) q = false.
Proof.
  intros Hq. induction ks as [|k ks IH]; [reflexivity|].
  cbn [map concat]. rewrite flipped_app, IH. unfold gray_block, gray_xs.
  rewrite flipped_app, flipped_gray_rot, flipped_x_gates_notin; [reflexivity|].
  rewrite rev_reverse, elem_of_reverse. exact Hq.
Qed.

Hypothesis Hnd : NoDup register.

Lemma flipped_whole_network (q : Qubit) :
  flipped (concat (map blk (range (2 ^ Z.of_nat n)))) q = false.
Proof.
  destruct (decide (q ∈ register)) as [Hin|Hnot];
    [|now apply flipped_blocks_notin].
  assert (Hrev : q ∈ rev register) by (now rewrite rev_reverse, elem_of_reverse).
  apply list_elem_of_lookup_1 in Hrev as [p Hp].
  pose proof (lookup_lt_Some _ _ _ Hp) as Hlt. rewrite length_rev in Hlt.
  assert (HN : 0 < 2 ^ Z.of_nat n) by (apply Z.pow_pos_nonneg; lia).
  replace (2 ^ Z.of_nat n) with (2 ^ Z.of_nat n - 1 + 1) by lia.
  rewrite range_succ by lia. rewrite map_app, concat_app.
  cbn [map concat]. rewrite app_nil_r. unfold gray_block at 2.
  rewrite app_assoc, flipped_app, flipped_gray_rot, xorb_false_r.
  pose proof (flipped_prefix C t register ancilla Hnd
                (Z.to_nat (2 ^ Z.of_nat n - 1)) p q Hp) as Hf.
  rewrite Z2Nat.id in Hf by lia. rewrite Hf.
  replace (2 ^ Z.of_nat n - 1) with (Z.ones (Z.of_nat n))
    by (rewrite Z.ones_equiv; lia).
  rewrite Z.ones_spec_low by lia. reflexivity.
Qed.

End WholeNetwork.

(** X4: when the decomposition of the eigenvalue-inversion network over
    a register of [n] distinct qubits succeeds, its X gates cancel: every
    line carries an even number of them, so they leave every classical
    state of the lines as it was.  The network has exactly 2·2^n − 2 X
    gates and 3·2^n − 2 operations. *)
Theorem X4_x_gates_cancel (C t : R) (register : list Qubit) (ancilla : Qubit) :
  let n := Z.of_nat (length register) in
  NoDup register →
  (∀ k, 0 <= k < 2 ^ n → (-1 <= asin_arg C t n k <= 1)%R) →
  ∃ ops,
    EigenRotation._decompose_ (EigenRotation.__init__ (n + 1) C t)
      (register ++ [ancilla]) = Ok ops
    ∧ (∀ state q, apply_X ops state q = state q)
    ∧ Z.of_nat (count_X ops) = 2 * 2 ^ n - 2
    ∧ Z.of_nat (length ops) = 3 * 2 ^ n - 2.
Proof.
  intros n Hnd Hdom. eexists. split; [now apply decompose_Ok|].
  pose proof (sum_ones_below (length register)) as Hsum.
  assert (Hpow : Z.of_nat (2 ^ S (length register)) = 2 * 2 ^ n).
  { rewrite Nat2Z.inj_pow.
    replace (Z.of_nat (S (length register))) with (n + 1) by lia.
    rewrite Z.pow_add_r by lia. change (Z.of_nat 2) with 2. lia. }
  split; [|split].
  - intros state q. unfold apply_X.
    rewrite flipped_whole_network by assumption. apply xorb_false_r.
  - rewrite count_X_blocks. lia.
  - rewrite length_blocks, range_length.
    assert (0 < 2 ^ n) by (apply Z.pow_pos_nonneg; lia).
    rewrite Nat2Z.inj_add, Z2Nat.id by (subst n; lia). subst n. lia.
Qed.

Lemma X4_x_gates_cancel_witness :
  NoDup [LineQubit 1; LineQubit 2]
  ∧ (∀ k, 0 <= k < 2 ^ 2 → (-1 <= asin_arg 1 1 2 k <= 1)%R)
  ∧ ∃ ops,
      EigenRotation._decompose_ (EigenRotation.__init__ (2 + 1) 1 1)
        [LineQubit 1; LineQubit 2; LineQubit 0] = Ok ops
      ∧ Z.of_nat (count_X ops) = 6
      ∧ Z.of_nat (length ops) = 10.
Proof.
  assert (Hnd : NoDup [LineQubit 1; LineQubit 2]).
  { apply NoDup_ListNoDup. repeat constructor; simpl; intuition congruence. }
  assert (Hdom : ∀ k, 0 <= k < 2 ^ 2 → (-1 <= asin_arg 1 1 2 k <= 1)%R).
  { intros k Hk. apply asin_arg_in_domain; [lia|lia|].
    pose proof PI_gt_2. simpl. lra. }
  split; [exact Hnd|]. split; [exact Hdom|].
  destruct (X4_x_gates_cancel 1 1 [LineQubit 1; LineQubit 2] (LineQubit 0)
              Hnd Hdom) as (ops & Hdec & _ & Hx & Hlen).
  exists ops. split; [exact Hdec|]. split; [exact Hx|exact Hlen].
Defined.

(** ** EigenRotation: the angles decrease with the eigenvalue *)

Lemma asin_monotone (x y : R) :
  (-1 <= x)%R → (x <= y)%R → (y <= 1)%R → (asin x <= asin y)%R.
Proof.
  intros Hx Hxy Hy. apply Rnot_lt_le. intros Hlt.
  pose proof (asin_bound x) as [Hx1 Hx2].
  pose proof (asin_bound y) as [Hy1 Hy2].
  pose proof (sin_increasing_1 _ _ Hy1 Hy2 Hx1 Hx2 Hlt) as Hs.
  rewrite !sin_asin in Hs by lra. lra.
Qed.

Lemma asin_arg_antitone (C t : R) (n k1 k2 : Z) :
  (0 <= C * IZR (2 ^ n) * t)%R →
  1 <= k1 <= k2 →
  (0 <= asin_arg C t n k2 <= asin_arg C t n k1)%R.
Proof.
  intros Ha Hk. unfold asin_arg. cbv zeta.
  destruct (Z.eqb_spec k1 0) as [|_]; [lia|].
  destruct (Z.eqb_spec k2 0) as [|_]; [lia|].
  assert (H1 : (1 <= IZR k1)%R) by (apply IZR_le; lia).
  assert (H12 : (IZR k1 <= IZR k2)%R) by (apply IZR_le; lia).
  pose proof PI_gt_2.
  assert (Hd1 : (0 < 2 * PI * IZR k1)%R) by nra.
  assert (Hd2 : (0 < 2 * PI * IZR k2)%R) by nra.
  split; [apply Rdiv_nonneg; lra|].
  apply Rle_div_iff; [exact Hd1|].
  set (a := (C * IZR (2 ^ n) * t)%R) in *.
  assert (E : a = (a / (2 * PI * IZR k2) * (2 * PI * IZR k2))%R)
    by (field; lra).
  assert (Hq : (0 <= a / (2 * PI * IZR k2))%R) by (apply Rdiv_nonneg; lra).
  revert E Hq. generalize (a / (2 * PI * IZR k2))%R. intros q E Hq.
  assert (Hq' : (0 <= q * PI)%R) by nra.
  assert (Hq'' : (0 <= q * PI * (IZR k2 - IZR k1))%R) by nra.
  lra.
Qed.

(** X5: when [0 ≤ C·N·t ≤ 2π], the angles of the ancilla rotations lie
    in [[0, π]] and do not grow with [k]: for [1 ≤ k1 ≤ k2 ≤ N] both
    rotations are built, and θ(k2) ≤ θ(k1). *)
Theorem X5_angles_decrease (C t : R) (n k1 k2 : Z) :
  0 <= n →
  (0 <= C * IZR (2 ^ n) * t <= 2 * PI)%R →
  1 <= k1 <= k2 → k2 <= 2 ^ n →
  let self := EigenRotation.__init__ (n + 1) C t in
  ∃ theta1 theta2,
    EigenRotation._ancilla_rotation self k1 = Ok (cirq_ry theta1)
    ∧ EigenRotation._ancilla_rotation self k2 = Ok (cirq_ry theta2)
    ∧ (0 <= theta2 <= theta1)%R ∧ (theta1 <= PI)%R.
Proof.
  intros Hn Hb Hk Hk2 self.
  exists (theta_spec C t n k1), (theta_spec C t n k2).
  split; [apply ancilla_rotation_all_Ok; (assumption || lia)|].
  split; [apply ancilla_rotation_all_Ok; (assumption || lia)|].
  pose proof (asin_arg_antitone C t n k1 k2 (proj1 Hb) Hk) as [H0 H12].
  pose proof (asin_arg_in_domain C t n Hn k1 ltac:(lia) Hb) as [_ H1].
  change (theta_spec C t n k1) with (2 * asin (asin_arg C t n k1))%R.
  change (theta_spec C t n k2) with (2 * asin (asin_arg C t n k2))%R.
  pose proof (asin_monotone 0 (asin_arg C t n k2) ltac:(lra) H0 ltac:(lra)) as Hm0.
  pose proof (asin_monotone (asin_arg C t n k2) (asin_arg C t n k1)
                ltac:(lra) H12 H1) as Hm.
  pose proof (asin_bound (asin_arg C t n k1)) as [_ Hhi].
  rewrite asin_0 in Hm0. lra.
Qed.

Lemma X5_angles_decrease_witness :
  0 <= 2
  ∧ (0 <= 1 * IZR (2 ^ 2) * 1 <= 2 * PI)%R
  ∧ 1 <= 1 <= 3 ∧ 3 <= 2 ^ 2
  ∧ ∃ theta1 theta2,
      EigenRotation._ancilla_rotation (EigenRotation.__init__ (2 + 1) 1 1) 1
      = Ok (cirq_ry theta1)
      ∧ EigenRotation._ancilla_rotation (EigenRotation.__init__ (2 + 1) 1 1) 3
        = Ok (cirq_ry theta2)
      ∧ (0 <= theta2 <= theta1)%R ∧ (theta1 <= PI)%R.
Proof.
  assert (Hn : 0 <= 2) by lia.
  assert (Hb : (0 <= 1 * IZR (2 ^ 2) * 1 <= 2 * PI)%R)
    by (pose proof PI_gt_2; simpl; lra).
  assert (Hk : 1 <= 1 <= 3) by lia.
  assert (Hk2 : 3 <= 2 ^ 2) by (simpl; lia).
  split; [exact Hn|]. split; [exact Hb|]. split; [exact Hk|]. split; [exact Hk2|].
  exact (X5_angles_decrease 1 1 2 1 3 Hn Hb Hk Hk2).
Defined.

(** ** PhaseEstimation and PhaseKickback *)

Lemma removelast_snoc {A} (l : list A) (x : A) : removelast (l ++ [x]) = l.
Proof. apply removelast_last. Qed.

Lemma elem_of_on_each (g : Gate) (qubits : list Qubit) (op : Operation) :
  op ∈ on_each g qubits ↔ ∃ q, op = on g [q] ∧ q ∈ qubits.
Proof. unfold on_each. apply list_elem_of_fmap. Qed.

Lemma phase_estimation_well_formed (num_qubits : Z) (U : Gate)
  (register : list Qubit) (memory : Qubit) :
  NoDup (register ++ [memory]) →
  num_qubits = Z.of_nat (length register) + 1 →
  Forall well_formed
    (PhaseEstimation._decompose_ num_qubits U (register ++ [memory])).
Proof.
  intros Hnd Hnum. unfold PhaseEstimation._decompose_.
  rewrite removelast_snoc.
  apply NoDup_app in Hnd as Hnd'. destruct Hnd' as (Hreg & _ & _).
  apply Forall_app. split; [now apply well_formed_on_each|].
  constructor; [|constructor; [|constructor]].
  - split; [|exact Hnd]. cbn [on op_gate op_qubits gate_num_qubits].
    rewrite length_app. cbn [length]. lia.
  - split; [reflexivity|exact Hreg].
Qed.

(** X6: on a register followed by the memory qubit, all distinct, the
    phase estimation decomposes into, in this order, one H on every
    register qubit, the phase kickback of the same unitary on all the
    qubits and the inverse of the quantum Fourier transform (without
    reversal) of the register.  H is applied to the register qubits and
    to no other, the kickback is the only operation on the memory
    qubit, and when the gate has as many qubits as it is applied to,
    every operation of the decomposition is applied to as many qubits
    as its gate has. *)
Theorem X6_phase_estimation_stages (num_qubits : Z) (U : Gate)
  (register : list Qubit) (memory : Qubit) :
  NoDup (register ++ [memory]) →
  num_qubits = Z.of_nat (length register) + 1 →
  let ops := PhaseEstimation._decompose_ num_qubits U (register ++ [memory]) in
  ops = on_each cirq_H register
        ++ [ on (PhaseKickbackGate num_qubits U) (register ++ [memory]);
             on (InverseGate
                   (QuantumFourierTransformGate (length register) true))
                register ]
  ∧ length ops = (length register + 2)%nat
  ∧ Forall well_formed ops
  ∧ (∀ q, on cirq_H [q] ∈ ops ↔ q ∈ register)
  ∧ (∀ op, op ∈ ops → memory ∈ op_qubits op →
       op = on (PhaseKickbackGate num_qubits U) (register ++ [memory])).
Proof.
  intros Hnd Hnum ops.
  pose proof (phase_estimation_well_formed num_qubits U register memory
                Hnd Hnum) as Hwf.
  revert Hwf. unfold ops, PhaseEstimation._decompose_.
  rewrite removelast_snoc. intros Hwf.
  apply NoDup_app in Hnd as Hnd'. destruct Hnd' as (Hreg & Hmem & _).
  split; [reflexivity|]. split; [|split; [|split]].
  - rewrite length_app. unfold on_each. rewrite length_map. reflexivity.
  - exact Hwf.
  - intros q. rewrite elem_of_app, elem_of_on_each. split.
    + intros [(q' & [= ->] & Hq)|Hin]; [exact Hq|].
      apply elem_of_cons in Hin as [Heq|Hin]; [discriminate|].
      apply list_elem_of_singleton in Hin. discriminate.
    + intros Hq. left. now exists q.
  - intros [g qs] Hin Hm. cbn [op_qubits] in Hm.
    apply elem_of_app in Hin as [Hin|Hin].
    + apply elem_of_on_each in Hin as (q & [= -> ->] & Hq).
      apply list_elem_of_singleton in Hm as ->. apply Hmem in Hq.
      exfalso. apply Hq. constructor.
    + apply elem_of_cons in Hin as [Heq|Hin]; [exact Heq|].
      apply list_elem_of_singleton in Hin. injection Hin as -> ->.
      apply Hmem in Hm. exfalso. apply Hm. constructor.
Qed.

Lemma X6_phase_estimation_stages_witness :
  let register := [LineQubit 1; LineQubit 2] in
  let memory := LineQubit 3 in
  NoDup (register ++ [memory])
  ∧ 3 = Z.of_nat (length register) + 1
  ∧ Forall well_formed
      (PhaseEstimation._decompose_ 3 cirq_Z (register ++ [memory])).
Proof.
  intros register memory.
  assert (Hnd : NoDup (register ++ [memory])).
  { unfold register, memory. cbn [app]. apply NoDup_ListNoDup.
    repeat (constructor; [simpl; intuition congruence|]). constructor. }
  assert (Hnum : 3 = Z.of_nat (length register) + 1) by reflexivity.
  split; [exact Hnd|]. split; [exact Hnum|].
  exact (proj1 (proj2 (proj2
           (X6_phase_estimation_stages 3 cirq_Z register memory Hnd Hnum)))).
Defined.

Section Kickback.

Variable hs : HamiltonianSimulation_obj.
Variable memory : Qubit.

(** The gate [self.U ** (2**i)] evaluates to. *)
Local Abbreviation power e i :=
  (HamiltonianSimulationGate
     (hs_value e (hs_A hs) (hs_t hs) (hs_exponent hs * IZR (2 ^ i)))).

Lemma kickback_loop_eq (qubits : list Qubit) (i : nat) (w : World) :
  ∃ w',
    PhaseKickback.kickback_loop (EigenGate_pow hs) memory (Z.of_nat i) qubits w
    = (imap (fun j q =>
               on (ControlledGate (power (ext w) (Z.of_nat (i + j))) 1) [q; memory])
            qubits, w')
    ∧ ext w' = ext w
    ∧ heap w' = heap w
    ∧ engine_calls w' = engine_calls w
    ∧ randint_calls w' = randint_calls w
    ∧ eigh_calls w' = eigh_calls w ++ replicate (length qubits) (hs_A hs).
Proof.
  revert i w. induction qubits as [|q qubits IH]; intros i w.
  - exists w. cbn [PhaseKickback.kickback_loop imap length replicate].
    rewrite M_ret_eq, app_nil_r. repeat split.
  - destruct (IH (S i) (log_eigh (hs_A hs) w))
      as (w' & Hloop & Hext & Hheap & Heng & Hrand & Heigh).
    exists w'. cbn [PhaseKickback.kickback_loop].
    erewrite M_bind_eq by apply EigenGate_pow_eq.
    replace (Z.of_nat i + 1) with (Z.of_nat (S i)) by lia.
    erewrite M_bind_eq by exact Hloop. rewrite M_ret_eq.
    split.
    + cbn [imap ext log_eigh]. rewrite Nat.add_0_r. do 2 f_equal.
      apply imap_ext. intros j q' _. unfold compose.
      now replace (i + S j)%nat with (S i + j)%nat by lia.
    + rewrite Hext, Hheap, Heng, Hrand, Heigh.
      cbn [ext heap engine_calls randint_calls eigh_calls log_eigh
           length replicate].
      rewrite <- app_assoc. repeat split.
Qed.

End Kickback.

(** X7: the phase kickback of a [HamiltonianSimulation] gate.  On an
    empty list of qubits the decomposition fails ([pop] from an empty
    list).  On a register followed by the memory qubit it yields one
    operation per register qubit: qubit [i] of the register controls,
    with the memory qubit as target, the gate re-exponentiated to
    [exponent · 2^i].  Every power builds a new gate, so that the
    eigendecomposition of the same matrix is computed once more per
    register qubit, and all the powers hold the eigen components of the
    original gate. *)
Theorem X7_phase_kickback_powers (A : Matrix) (t exponent : R)
  (register : list Qubit) (memory : Qubit) (w0 : World) :
  let '(hs, w) := HamiltonianSimulation.__init__ A t exponent w0 in
  PhaseKickback._decompose_ (EigenGate_pow hs) [] = None
  ∧ ∃ decomposition,
      PhaseKickback._decompose_ (EigenGate_pow hs) (register ++ [memory])
      = Some decomposition
      ∧ let '(ops, w') := decomposition w in
        length ops = length register
        ∧ (∀ i q, register !! i = Some q →
             ∃ U, ops !! i
                  = Some (on (ControlledGate (HamiltonianSimulationGate U) 1)
                             [q; memory])
                  ∧ hs_exponent U = (exponent * IZR (2 ^ Z.of_nat i))%R
                  ∧ hs_A U = A ∧ hs_t U = t
                  ∧ HamiltonianSimulation._eigen_components U
                    = HamiltonianSimulation._eigen_components hs)
        ∧ eigh_calls w' = eigh_calls w ++ replicate (length register) A
        ∧ heap w' = heap w
        ∧ engine_calls w' = engine_calls w.
Proof.
  rewrite HamiltonianSimulation_init.
  set (hs := hs_value (ext w0) A t exponent).
  destruct (hs_value_fields (ext w0) A t exponent) as (HA & Ht & He).
  fold hs in HA, Ht, He.
  split; [reflexivity|].
  unfold PhaseKickback._decompose_. rewrite last_snoc, removelast_snoc.
  eexists. split; [reflexivity|].
  destruct (kickback_loop_eq hs memory register 0 (log_eigh A w0))
    as (w' & Hloop & Hext & Hheap & Heng & _ & Heigh).
  change (Z.of_nat 0) with 0 in Hloop. rewrite Hloop.
  split; [apply length_imap|].
  split; [|rewrite Heigh, HA; auto].
  intros i q Hq. eexists. split.
  - rewrite list_lookup_imap, Hq. cbn [fmap option_fmap option_map]. reflexivity.
  - cbn [ext log_eigh]. rewrite HA, Ht, He.
    destruct (hs_value_fields (ext w0) A t (exponent * IZR (2 ^ Z.of_nat (0 + i))))
      as (-> & -> & ->).
    cbn [Nat.add]. repeat split.
    unfold HamiltonianSimulation._eigen_components, hs.
    apply hs_value_eigen_components.
Qed.

(** ** HamiltonianSimulation: the eigen components *)

Lemma eigen_fold (t : R) (l : list (R * list Cplx)) (acc : list (R * Matrix)) :
  fold_left
    (fun eigen_components '(w, v) =>
       let theta := (w * t / PI)%R in
       let P := np_outer v (np_conj v) in
       eigen_components ++ [(theta, P)]) l acc
  = acc ++ map (fun '(w, v) => ((w * t / PI)%R, np_outer v (np_conj v))) l.
Proof.
  revert acc. induction l as [|[w v] l IH]; intros acc.
  - simpl. now rewrite app_nil_r.
  - cbn [fold_left map]. rewrite IH, <- app_assoc. reflexivity.
Qed.

Lemma eigen_loop_map (ws : list R) (vs : Matrix) (t : R) :
  HamiltonianSimulation.eigen_loop ws vs t
  = map (fun '(w, v) => ((w * t / PI)%R, np_outer v (np_conj v)))
      (zip ws (np_transpose vs)).
Proof. unfold HamiltonianSimulation.eigen_loop. now rewrite eigen_fold. Qed.

Lemma lookup_zip_Some {A B} (a : list A) (b : list B) (k : nat) (x : A) (y : B) :
  zip a b !! k = Some (x, y) ↔ a !! k = Some x ∧ b !! k = Some y.
Proof.
  unfold zip. revert b k.
  induction a as [|a0 a IH]; intros [|b0 b] [|k]; simpl;
    try apply IH;
    (split; [try discriminate|intros [Hx Hy]; try discriminate]).
  - now injection 1 as -> ->.
  - now injection Hx as ->; injection Hy as ->.
Qed.

Lemma np_outer_lookup (u v : list Cplx) (i j : nat) (a : Cplx) :
  (np_outer u v !! i ≫= (fun row => row !! j)) = Some a
  ↔ ∃ x y, u !! i = Some x ∧ v !! j = Some y ∧ a = Cmul x y.
Proof.
  unfold np_outer, Matrix. rewrite list_lookup_fmap.
  destruct (u !! i) as [x|]; cbn.
  - rewrite list_lookup_fmap. destruct (v !! j) as [y|]; cbn.
    + split; [intros [= <-]; eauto|intros (x' & y' & [= <-] & [= <-] & ->)];
        reflexivity.
    + split; [discriminate|intros (? & ? & _ & ? & _); discriminate].
  - split; [discriminate|intros (? & ? & ? & _); discriminate].
Qed.

Lemma np_conj_lookup (v : list Cplx) (j : nat) :
  np_conj v !! j = Cconj <$> v !! j.
Proof. unfold np_conj. apply list_lookup_fmap. Qed.

Lemma projector_entry (v : list Cplx) (i j : nat) (a : Cplx) :
  (np_outer v (np_conj v) !! i ≫= (fun row => row !! j)) = Some a
  ↔ ∃ x y, v !! i = Some x ∧ v !! j = Some y ∧ a = Cmul x (Cconj y).
Proof.
  rewrite np_outer_lookup. split.
  - intros (x & y' & Hx & Hy & ->). rewrite np_conj_lookup in Hy.
    destruct (v !! j) as [y|]; [|discriminate]. injection Hy as <-. eauto.
  - intros (x & y & Hx & Hy & ->). exists x, (Cconj y).
    rewrite np_conj_lookup, Hy. auto.
Qed.

Lemma Cconj_Cmul_swap (x y : Cplx) : Cconj (Cmul x (Cconj y)) = Cmul y (Cconj x).
Proof.
  destruct x as [x1 x2], y as [y1 y2]. unfold Cconj, Cmul. cbn [fst snd].
  f_equal; ring.
Qed.

Lemma np_outer_shape (u v : list Cplx) :
  length (np_outer u v) = length u
  ∧ Forall (fun row => length row = length v) (np_outer u v).
Proof.
  unfold np_outer. split; [apply length_map|].
  apply Forall_fmap, Forall_forall. intros x _. apply length_map.
Qed.

(** X8: the eigen components [HamiltonianSimulation.__init__] stores.
    There is one per eigenvalue that has an eigenvector column; the
    angle of component [k] is [w_k · t / π], and its matrix is the outer
    product of column [k] of the eigenvector matrix with its conjugate:
    a square matrix of the size of the column, which is Hermitian
    (entry [j, i] is the conjugate of entry [i, j]) and has a real,
    non-negative diagonal. *)
Theorem X8_eigen_components (A : Matrix) (t exponent : R) (w : World) :
  let '(hs, _) := HamiltonianSimulation.__init__ A t exponent w in
  let '(ws, vs) := np_linalg_eigh (ext w) A in
  let components := HamiltonianSimulation._eigen_components hs in
  length components = Nat.min (length ws) (length (np_transpose vs))
  ∧ ∀ k theta P,
      components !! k = Some (theta, P) →
      ∃ w_k v_k,
        ws !! k = Some w_k
        ∧ np_transpose vs !! k = Some v_k
        ∧ theta = (w_k * t / PI)%R
        ∧ P = np_outer v_k (np_conj v_k)
        ∧ length P = length v_k
        ∧ Forall (fun row => length row = length v_k) P
        ∧ (∀ i j x y, v_k !! i = Some x → v_k !! j = Some y →
             (P !! i ≫= (fun row => row !! j)) = Some (Cmul x (Cconj y)))
        ∧ (∀ i j a, (P !! i ≫= (fun row => row !! j)) = Some a →
             (P !! j ≫= (fun row => row !! i)) = Some (Cconj a))
        ∧ (∀ i a, (P !! i ≫= (fun row => row !! i)) = Some a →
             snd a = 0%R ∧ (0 <= fst a)%R).
Proof.
  rewrite HamiltonianSimulation_init. unfold hs_value.
  destruct (np_linalg_eigh (ext w) A) as [ws vs].
  unfold HamiltonianSimulation._eigen_components. cbn [hs_eigen_components].
  rewrite eigen_loop_map. split.
  - rewrite length_map. unfold zip. apply length_combine.
  - intros k theta P Hk. rewrite list_lookup_fmap in Hk.
    destruct (zip ws (np_transpose vs) !! k) as [[w_k v]|] eqn:Hz;
      [|discriminate].
    apply lookup_zip_Some in Hz as [Hw Hv]. injection Hk as <- <-.
    exists w_k, v. split; [exact Hw|]. split; [exact Hv|].
    split; [reflexivity|]. split; [reflexivity|].
    destruct (np_outer_shape v (np_conj v)) as [Hlen Hrows].
    unfold np_conj in Hrows at 1. rewrite length_map in Hrows.
    split; [exact Hlen|]. split; [exact Hrows|]. split; [|split].
    + intros i j x y Hx Hy. apply projector_entry. eauto.
    + intros i j a Ha. apply projector_entry in Ha as (x & y & Hx & Hy & ->).
      apply projector_entry. exists y, x. split; [exact Hy|].
      split; [exact Hx|]. apply Cconj_Cmul_swap.
    + intros i a Ha. apply projector_entry in Ha as (x & y & Hx & Hy & ->).
      rewrite Hx in Hy. injection Hy as <-. destruct x as [x1 x2].
      unfold Cmul, Cconj. cbn [fst snd]. split; [ring|nra].
Qed.

(** ** HHLAlgorithm: what amplitude amplification costs *)

Lemma length_concat_replicate {A} (n : nat) (l : list A) :
  length (concat (replicate n l)) = (n * length l)%nat.
Proof.
  induction n as [|n IH]; [reflexivity|].
  cbn [replicate concat]. rewrite length_app, IH. lia.
Qed.

Lemma length_base_circuit (e : External) (self : HHLAlgorithm.obj) :
  length (build_base_circuit e self)
  = (length (HHLAlgorithm.hhl_input_prep_gates self) + 3)%nat.
Proof.
  unfold build_base_circuit. rewrite length_app, length_map. reflexivity.
Qed.

Lemma length_diffusion_operator (self : HHLAlgorithm.obj) :
  length (build_diffusion_operator self)
  = (2 * (length (HHLAlgorithm.hhl_register self) + 2) + 1)%nat.
Proof.
  unfold build_diffusion_operator, on_each. cbv zeta.
  rewrite !length_app, !length_map, !length_app. cbn [length]. lia.
Qed.

Lemma concat_replicate_replicate {A} (n m : nat) (a : A) :
  concat (replicate n (replicate m a)) = replicate (n * m) a.
Proof.
  induction n as [|n IH]; [reflexivity|].
  cbn [replicate concat Nat.mul]. now rewrite IH, replicate_add.
Qed.

Lemma circuit_eighs_base (e : External) (A : Matrix) (C t : R)
  (register_size : Z) (gates : list Gate) :
  Forall (fun g => single_qubit_cirq_gate g = true) gates →
  circuit_eighs
    (build_base_circuit e (HHLAlgorithm.__init__ A C t register_size gates))
  = replicate (2 * Z.to_nat register_size) A.
Proof.
  intros Hgates. unfold circuit_eighs, build_base_circuit.
  rewrite rev_app_distr.
  cbn [rev app flat_map phase_estimation_network eigenvalue_inversion_network
       on op_inverse op_gate gate_inverse pow_m1_eighs eigen_gate_eighs
       kickback_eighs HHLAlgorithm.hhl_register_size HHLAlgorithm.hhl_A
       HHLAlgorithm.hhl_t HHLAlgorithm.__init__].
  destruct (hs_value_fields e A t 1) as (-> & _).
  replace (register_size + 1 - 1) with register_size by lia.
  rewrite flat_map_nil; [apply app_nil_r|].
  intros op Hop. rewrite rev_reverse, elem_of_reverse in Hop.
  apply list_elem_of_fmap in Hop as (g & -> & Hg).
  rewrite Forall_forall in Hgates. specialize (Hgates g Hg).
  now destruct g.
Qed.

(** X9: what [amplitude_amplification] costs, for [register_size ≥ 0],
    preparation gates of cirq on one qubit and parameters for which the
    rotation angles are defined.  It draws no random number and calls no
    simulator.  It computes [1 + 2·r·(1 + n)] eigendecompositions of
    [A], for [r] the size of the register and [n] the number of
    iterations (none when [num_iterations] is negative): one to build
    the gate, [2·r] when the phase estimation is inverted for the base
    circuit, and [2·r] every time the base circuit is inverted.  It
    creates three circuit objects and one more per iteration, and the
    circuit it returns has [b + n·(2·b + 2·(r + 2) + 2)] operations, for
    [b] the number of preparation gates plus three. *)
Theorem X9_amplification_resources (A : Matrix) (C t : R) (register_size : Z)
  (gates : list Gate) (num_iterations : Z) (w : World) :
  0 <= register_size →
  Forall (fun g => single_qubit_cirq_gate g = true) gates →
  (0 <= C * IZR (2 ^ register_size) * t <= 2 * PI)%R →
  let self := HHLAlgorithm.__init__ A C t register_size gates in
  let '(c, w') := HHLAlgorithm.amplitude_amplification self num_iterations w in
  let n := Z.to_nat num_iterations in
  let b := (length gates + 3)%nat in
  let r := Z.to_nat register_size in
  eigh_calls w' = eigh_calls w ++ replicate (1 + 2 * r * (1 + n)) A
  ∧ randint_calls w' = randint_calls w
  ∧ engine_calls w' = engine_calls w
  ∧ length (heap w') = (length (heap w) + 3 + n)%nat
  ∧ length (contents w' c) = (b + n * (2 * b + 2 * (r + 2) + 2))%nat
  ∧ (num_iterations <= 0 → contents w' c = build_base_circuit (ext w) self).
Proof.
  intros Hrs Hgates _ self. subst self.
  rewrite amplitude_amplification_eq. cbv zeta.
  cbn [eigh_calls randint_calls engine_calls heap set_heap log_matrices].
  split; [|split; [reflexivity|]; split; [reflexivity|]].
  { f_equal. unfold amplified_eighs, base_eighs.
    rewrite (circuit_eighs_base (ext w) A C t register_size gates Hgates).
    rewrite concat_replicate_replicate, <- replicate_add.
    cbn [HHLAlgorithm.hhl_register_size HHLAlgorithm.hhl_A
         HHLAlgorithm.__init__].
    f_equal. lia. }
  rewrite contents_set_heap.
  replace (S (length (heap w))) with (length (heap w) + 1)%nat by lia.
  rewrite heap_at1. split; [|split].
  - rewrite length_app. cbn [length]. rewrite length_replicate. lia.
  - unfold build_amplified_circuit, amplification_round, Circuit.
    rewrite length_app, length_concat_replicate, !length_app.
    unfold circuit_inverse. rewrite length_rev, length_map.
    rewrite length_base_circuit, length_diffusion_operator, register_length.
    cbn [length HHLAlgorithm.hhl_input_prep_gates HHLAlgorithm.__init__].
    lia.
  - intros Hn. unfold build_amplified_circuit.
    replace (Z.to_nat num_iterations) with 0%nat by lia.
    cbn [replicate concat]. apply app_nil_r.
Qed.

Lemma X9_amplification_resources_witness :
  let self := HHLAlgorithm.__init__ example_A 1 1 2 [cirq_rx 1; cirq_rz 1] in
  0 <= 2
  ∧ Forall (fun g => single_qubit_cirq_gate g = true) [cirq_rx 1; cirq_rz 1]
  ∧ (0 <= 1 * IZR (2 ^ 2) * 1 <= 2 * PI)%R
  ∧ let '(c, w') :=
      HHLAlgorithm.amplitude_amplification self 1 example_world in
    eigh_calls w' = replicate 9 example_A
    ∧ length (contents w' c) = 25%nat.
Proof.
  intros self.
  assert (Hrs : 0 <= 2) by lia.
  assert (Hg : Forall (fun g => single_qubit_cirq_gate g = true)
                 [cirq_rx 1; cirq_rz 1]) by (repeat constructor).
  assert (Hb : (0 <= 1 * IZR (2 ^ 2) * 1 <= 2 * PI)%R)
    by (pose proof PI_gt_2; simpl; lra).
  split; [exact Hrs|]. split; [exact Hg|]. split; [exact Hb|].
  pose proof (X9_amplification_resources example_A 1 1 2 _ 1 example_world
                Hrs Hg Hb) as Hx.
  cbv zeta in Hx. fold self in Hx.
  destruct (HHLAlgorithm.amplitude_amplification self 1 example_world)
    as [c w'].
  destruct Hx as (Heigh & _ & _ & _ & Hlen & _).
  split; [exact Heigh|exact Hlen].
Defined.

(** ** HHLAlgorithm: the resources of the amplified sampling *)



Section TrialWorld.

Import HHLAlgorithm.
Variables (self : obj) (resolver : ParamResolver).


End TrialWorld.








(** ** HHLAlgorithm: the estimates of the amplified sampling *)










(** ** HHLAlgorithm: printing what the amplified sampling returns *)






(** ** HHLAlgorithm: the edge cases of printing *)

Lemma print_loop_stops (a rest : list (string * list Z * Z)) (label : string)
  (result : list Z) (success_probability : list Q) (out : list Line) :
  Forall (fun item => snd item ≠ 0) a →
  HHLAlgorithm.print_loop (a ++ (label, result, 0) :: rest)
    success_probability out
  = (out ++ map line_of (a ++ [(label, result, 0)]), Raise ZeroDivisionError).
Proof.
  revert success_probability out.
  induction a as [|[[l r] n] a IH]; intros success_probability out Ha.
  - cbn [app map]. apply print_loop_zero_runs.
  - apply Forall_cons in Ha as [Hn Ha]. cbn [snd] in Hn.
    cbn [app HHLAlgorithm.print_loop]. unfold int_truediv.
    destruct (Z.eqb_spec n 0) as [|_]; [contradiction|].
    rewrite IH by assumption. cbn [map]. rewrite <- app_assoc.
    do 2 f_equal. cbn [app]. f_equal.
    unfold line_of, np_mean, one_minus_twice. now destruct r.
Qed.

Lemma print_loop_lines (items : list (string * list Z * Z))
  (success_probability : list Q) (out : list Line) :
  ∃ k, fst (HHLAlgorithm.print_loop items success_probability out)
       = out ++ map line_of (take k items).
Proof.
  revert success_probability out.
  induction items as [|[[l r] n] items IH]; intros success_probability out.
  - exists 0%nat. cbn. now rewrite app_nil_r.
  - cbn [HHLAlgorithm.print_loop]. unfold int_truediv.
    assert (Hline : {| line_label := l;
                       line_expectation := one_minus_twice (np_mean r);
                       line_num_estimates := Z.of_nat (length r);
                       line_runs := n |} = line_of (l, r, n)).
    { unfold line_of, np_mean, one_minus_twice. now destruct r. }
    rewrite Hline. destruct (n =? 0).
    + exists 1%nat. reflexivity.
    + destruct (IH (success_probability ++ [inject_Z (Z.of_nat (length r))
                                            / inject_Z n])%Q
                   (out ++ [line_of (l, r, n)])) as [k Hk].
      exists (S k). rewrite Hk, <- app_assoc. reflexivity.
Qed.

Lemma length_labelled (results : list (list Z)) (num_runs : list Z) :
  length (zip (zip ["X"; "Y"; "Z"]%string results) num_runs)
  = Nat.min 3 (Nat.min (length results) (length num_runs)).
Proof. unfold zip. rewrite !length_combine. cbn [length]. lia. Qed.

(** X13: [print_results] pairs the labels X, Y, Z with the arrays and
    the run counts it is given and stops at the shortest of the three:
    with non-zero run counts it prints min(3, number of arrays, number
    of run counts) lines, so that a fourth array is ignored; when there
    is nothing to pair it prints no line and returns NaN, the mean of an
    empty list, and otherwise it returns a number. *)
Theorem X13_print_results_shortest (self : HHLAlgorithm.obj)
  (results : list (list Z)) (num_runs : list Z) :
  Forall (fun runs => runs ≠ 0) num_runs →
  let '(lines, r) := HHLAlgorithm.print_results self results num_runs in
  length lines = Nat.min 3 (Nat.min (length results) (length num_runs))
  ∧ (results = [] ∨ num_runs = [] → lines = [] ∧ r = Ok NaN)
  ∧ (results ≠ [] → num_runs ≠ [] → ∃ p, r = Ok (Fin p)).
Proof.
  intros Hruns. unfold HHLAlgorithm.print_results.
  rewrite print_loop_nonzero
    by (apply (Forall_zip_snd (fun runs => runs ≠ 0)), Hruns).
  cbn [app]. rewrite bind_Ok. split; [|split].
  - rewrite length_map. apply length_labelled.
  - intros [-> | ->].
    + now destruct num_runs.
    + unfold zip. rewrite combine_nil. auto.
  - intros Hres Hnum. destruct results as [|r0 results]; [contradiction|].
    destruct num_runs as [|n0 num_runs]; [contradiction|].
    cbn [zip combine map np_mean_floats]. eauto.
Qed.

Lemma X13_print_results_shortest_witness :
  let self := HHLAlgorithm.__init__ example_A 1 1 2 [] in
  Forall (fun runs => runs ≠ 0) [4; 4; 4; 4]
  ∧ let '(lines, r) :=
      HHLAlgorithm.print_results self [[0]; [1]; [0; 1]; [1; 1]] [4; 4; 4; 4] in
    length lines = 3%nat ∧ ∃ p, r = Ok (Fin p).
Proof.
  intros self.
  assert (Hruns : Forall (fun runs => runs ≠ 0) [4; 4; 4; 4])
    by (repeat constructor; discriminate).
  split; [exact Hruns|].
  pose proof (X13_print_results_shortest self [[0]; [1]; [0; 1]; [1; 1]]
                [4; 4; 4; 4] Hruns) as Hx.
  destruct (HHLAlgorithm.print_results self [[0]; [1]; [0; 1]; [1; 1]]
              [4; 4; 4; 4]) as [lines r].
  destruct Hx as (Hlen & _ & Hp).
  split; [exact Hlen|]. apply Hp; discriminate.
Defined.

(** X14: the first run count that is zero ends [print_results]: when
    the run count of observable [i] is zero and those before it are not,
    the lines of the observables up to and including [i] are printed,
    the division [num_estimates / runs] raises ZeroDivisionError, and
    the observables after [i] are not processed. *)
Theorem X14_print_results_zero_runs (self : HHLAlgorithm.obj)
  (results : list (list Z)) (num_runs : list Z) (i : nat) :
  (i < 3)%nat → (i < length results)%nat →
  num_runs !! i = Some 0 →
  (∀ j n, (j < i)%nat → num_runs !! j = Some n → n ≠ 0) →
  let items := zip (zip ["X"; "Y"; "Z"]%string results) num_runs in
  HHLAlgorithm.print_results self results num_runs
  = (map line_of (take (S i) items), Raise ZeroDivisionError)
  ∧ length (take (S i) items) = S i.
Proof.
  intros Hi3 Hires Hzero Hbefore items.
  destruct (lookup_lt_is_Some_2 ["X"; "Y"; "Z"]%string i Hi3) as [label Hlabel].
  destruct (lookup_lt_is_Some_2 results i Hires) as [result Hresult].
  assert (Hitem : items !! i = Some (label, result, 0)).
  { apply lookup_zip_Some. split; [|exact Hzero].
    apply lookup_zip_Some. now split. }
  pose proof (lookup_lt_Some _ _ _ Hitem) as Hlt.
  assert (Hsplit : items = take i items ++ (label, result, 0) :: drop (S i) items)
    by (symmetry; now apply take_drop_middle).
  assert (Htake : take (S i) items = take i items ++ [(label, result, 0)])
    by (now apply take_S_r).
  split; [|rewrite length_take; lia].
  unfold HHLAlgorithm.print_results. fold items.
  rewrite Hsplit at 1. rewrite print_loop_stops.
  - cbn [app]. now rewrite Htake.
  - apply Forall_lookup. intros j [[l r] n] Hj. cbn [snd].
    apply lookup_take_Some in Hj as [Hj Hji].
    apply lookup_zip_Some in Hj as [_ Hn]. now apply (Hbefore j).
Qed.

Lemma X14_print_results_zero_runs_witness :
  let self := HHLAlgorithm.__init__ example_A 1 1 2 [] in
  (1 < 3)%nat ∧ (1 < length [[0]; [1]; [0; 1]])%nat
  ∧ [4; 0; 4] !! 1%nat = Some 0
  ∧ (∀ j n, (j < 1)%nat → [4; 0; 4] !! j = Some n → n ≠ 0)
  ∧ length (fst (HHLAlgorithm.print_results self [[0]; [1]; [0; 1]] [4; 0; 4]))
    = 2%nat
  ∧ snd (HHLAlgorithm.print_results self [[0]; [1]; [0; 1]] [4; 0; 4])
    = Raise ZeroDivisionError.
Proof.
  intros self.
  assert (H1 : (1 < 3)%nat) by lia.
  assert (H2 : (1 < length [[0]; [1]; [0; 1]])%nat) by (simpl; lia).
  assert (H3 : [4; 0; 4] !! 1%nat = Some 0) by reflexivity.
  assert (H4 : ∀ j n, (j < 1)%nat → [4; 0; 4] !! j = Some n → n ≠ 0).
  { intros [|j] n Hj Hn; [|lia]. injection Hn as <-. discriminate. }
  split; [exact H1|]. split; [exact H2|]. split; [exact H3|]. split; [exact H4|].
  destruct (X14_print_results_zero_runs self [[0]; [1]; [0; 1]] [4; 0; 4] 1
              H1 H2 H3 H4) as [Heq _].
  rewrite Heq. split; reflexivity.
Defined.

(** ** The decompositions of the gates of the base circuit *)

Lemma gate_num_qubits_controlled_n (m : nat) (g : Gate) :
  gate_num_qubits (controlled_n m g) = Z.of_nat m + gate_num_qubits g.
Proof.
  induction m as [|m IH]; [reflexivity|].
  unfold controlled_n in *. rewrite Nat.iter_succ. cbn [gate_num_qubits].
  rewrite IH. lia.
Qed.

Lemma well_formed_x_gates (qs : list Qubit) (xor : Z) :
  Forall well_formed (x_gates qs xor).
Proof.
  revert xor. induction qs as [|q qs IH]; intros xor; [constructor|].
  cbn [x_gates]. apply Forall_app. split; [|apply IH].
  destruct (Z.testbit xor 0); [|constructor].
  constructor; [|constructor]. split; [reflexivity|apply NoDup_singleton].
Qed.

Lemma well_formed_gray_block (C t : R) (register : list Qubit)
  (ancilla : Qubit) (k : Z) :
  NoDup (register ++ [ancilla]) →
  Forall well_formed (gray_block C t register ancilla k).
Proof.
  intros Hnd. unfold gray_block, gray_xs.
  apply Forall_app. split; [apply well_formed_x_gates|].
  constructor; [|constructor]. split; [|exact Hnd].
  unfold gray_rot. cbn [on op_gate op_qubits].
  rewrite gate_num_qubits_controlled_n, length_app. cbn. lia.
Qed.

Lemma well_formed_kickback (hs : HamiltonianSimulation_obj)
  (register : list Qubit) (memory : Qubit) (w : World) :
  NoDup (register ++ [memory]) →
  Forall well_formed
    (fst (PhaseKickback.kickback_loop (EigenGate_pow hs) memory 0 register w)).
Proof.
  intros Hnd.
  destruct (kickback_loop_eq hs memory register 0 w) as (w' & Hloop & _).
  change (Z.of_nat 0) with 0 in Hloop. rewrite Hloop. cbn [fst].
  apply Forall_lookup. intros i op Hop.
  rewrite list_lookup_imap in Hop.
  destruct (register !! i) as [q|] eqn:Hq; [|discriminate].
  injection Hop as <-. split; [reflexivity|].
  cbn [on op_qubits]. apply NoDup_cons. split; [|apply NoDup_singleton].
  intros Hin. apply list_elem_of_singleton in Hin as ->.
  apply NoDup_app in Hnd as (_ & Hmem & _).
  apply (Hmem memory); [now apply list_elem_of_lookup_2 in Hq|constructor].
Qed.

(** X15: the three composite gates of the base circuit decompose into
    operations cirq accepts.  For [register_size ≥ 0] and
    [0 ≤ C·2^register_size·t ≤ 2π], the eigenvalue inversion on
    register and ancilla, the phase estimation on register and memory
    and the phase kickback inside it all decompose, and every operation
    they yield applies its gate to as many qubits as the gate has, all
    distinct. *)
Theorem X15_decompositions_well_formed (A : Matrix) (C t : R)
  (register_size : Z) (gates : list Gate) (w : World) :
  0 <= register_size →
  (0 <= C * IZR (2 ^ register_size) * t <= 2 * PI)%R →
  let self := HHLAlgorithm.__init__ A C t register_size gates in
  let register := HHLAlgorithm.hhl_register self in
  let '(hs, w1) := HamiltonianSimulation.__init__ A t 1 w in
  (∃ ops,
     EigenRotation._decompose_ (EigenRotation.__init__ (register_size + 1) C t)
       (register ++ [HHLAlgorithm.hhl_ancilla self]) = Ok ops
     ∧ Forall well_formed ops)
  ∧ Forall well_formed
      (PhaseEstimation._decompose_ (register_size + 1)
         (HamiltonianSimulationGate hs)
         (register ++ [HHLAlgorithm.hhl_memory self]))
  ∧ ∃ decomposition,
      PhaseKickback._decompose_ (EigenGate_pow hs)
        (register ++ [HHLAlgorithm.hhl_memory self]) = Some decomposition
      ∧ Forall well_formed (fst (decomposition w1)).
Proof.
  intros Hrs Hb self register.
  rewrite HamiltonianSimulation_init.
  assert (Hlen : Z.of_nat (length register) = register_size).
  { unfold register, self. rewrite register_length. lia. }
  pose proof (register_memory_NoDup A C t register_size gates) as Hmem.
  pose proof (register_ancilla_NoDup A C t register_size gates) as Hanc.
  fold self in Hmem, Hanc. fold register in Hmem, Hanc.
  split; [|split].
  - eexists. split.
    + rewrite <- Hlen. apply decompose_Ok. intros k Hk. rewrite Hlen in *.
      apply asin_arg_in_domain; (assumption || lia).
    + apply Forall_concat, Forall_fmap, Forall_forall. intros k _.
      now apply well_formed_gray_block.
  - apply phase_estimation_well_formed; [exact Hmem|lia].
  - unfold PhaseKickback._decompose_. rewrite last_snoc, removelast_snoc.
    eexists. split; [reflexivity|]. now apply well_formed_kickback.
Qed.

Lemma X15_decompositions_well_formed_witness :
  let self := HHLAlgorithm.__init__ example_A 1 1 2 [] in
  let register := HHLAlgorithm.hhl_register self in
  0 <= 2
  ∧ (0 <= 1 * IZR (2 ^ 2) * 1 <= 2 * PI)%R
  ∧ let '(hs, w1) := HamiltonianSimulation.__init__ example_A 1 1 example_world in
    (∃ ops,
       EigenRotation._decompose_ (EigenRotation.__init__ (2 + 1) 1 1)
         (register ++ [HHLAlgorithm.hhl_ancilla self]) = Ok ops
       ∧ Forall well_formed ops)
    ∧ Forall well_formed
        (PhaseEstimation._decompose_ (2 + 1) (HamiltonianSimulationGate hs)
           (register ++ [HHLAlgorithm.hhl_memory self]))
    ∧ ∃ decomposition,
        PhaseKickback._decompose_ (EigenGate_pow hs)
          (register ++ [HHLAlgorithm.hhl_memory self]) = Some decomposition
        ∧ Forall well_formed (fst (decomposition w1)).
Proof.
  intros self register.
  assert (Hrs : 0 <= 2) by lia.
  assert (Hb : (0 <= 1 * IZR (2 ^ 2) * 1 <= 2 * PI)%R)
    by (pose proof PI_gt_2; simpl; lra).
  split; [exact Hrs|]. split; [exact Hb|].
  exact (X15_decompositions_well_formed example_A 1 1 2 [] example_world Hrs Hb).
Defined.

(** ** HHLAlgorithm: the expectations printed *)

Lemma Zsum_bits (l : list Z) :
  Forall (fun b => b = 0 ∨ b = 1) l → 0 <= Zsum l <= Z.of_nat (length l).
Proof.
  induction 1 as [|b l Hb _ IH]; [cbn; lia|].
  cbn [Zsum fold_right length]. fold (Zsum l). lia.
Qed.

Lemma expectation_bounds (label : string) (result : list Z) (runs : Z) :
  Forall (fun b => b = 0 ∨ b = 1) result →
  match line_expectation (line_of (label, result, runs)) with
  | NaN => line_num_estimates (line_of (label, result, runs)) = 0
  | Fin q =>
      0 < line_num_estimates (line_of (label, result, runs))
      ∧ (-1 <= q <= 1)%Q
  end.
Proof.
  intros Hbits. pose proof (Zsum_bits result Hbits) as [H0 H1].
  destruct result as [|b result]; [reflexivity|].
  cbn [line_of line_expectation line_num_estimates].
  set (s := Zsum (b :: result)) in *. set (n := Z.of_nat (length (b :: result))) in *.
  assert (Hn : 0 < n) by (subst n; cbn [length]; lia).
  split; [exact Hn|].
  assert (Hq : (0 <= inject_Z s / inject_Z n <= 1)%Q).
  { assert (Hn' : (0 < inject_Z n)%Q)
      by (change 0%Q with (inject_Z 0); now rewrite <- Zlt_Qlt).
    split.
    - apply Qle_shift_div_l; [exact Hn'|]. rewrite Qmult_0_l.
      change 0%Q with (inject_Z 0). now rewrite <- Zle_Qle.
    - apply Qle_shift_div_r; [exact Hn'|]. rewrite Qmult_1_l.
      now rewrite <- Zle_Qle. }
  revert Hq. generalize (inject_Z s / inject_Z n)%Q. intros q Hq. Lqa.lra.
Qed.

(** X16: when the arrays given to [print_results] hold bits, every line
    it prints, also before a division by zero, has an expectation that
    is either NaN, for an observable with no estimate, or a number
    between −1 and 1. *)
Theorem X16_expectations_bounded (self : HHLAlgorithm.obj)
  (results : list (list Z)) (num_runs : list Z) :
  Forall (Forall (fun b => b = 0 ∨ b = 1)) results →
  Forall (fun line =>
            match line_expectation line with
            | NaN => line_num_estimates line = 0
            | Fin q => 0 < line_num_estimates line ∧ (-1 <= q <= 1)%Q
            end)
    (fst (HHLAlgorithm.print_results self results num_runs)).
Proof.
  intros Hbits. unfold HHLAlgorithm.print_results.
  destruct (print_loop_lines
              (zip (zip ["X"; "Y"; "Z"]%string results) num_runs) [] [])
    as [k Hk].
  destruct (HHLAlgorithm.print_loop _ _ _) as [out r]. cbn [fst app] in *.
  subst out. apply Forall_fmap, Forall_take, Forall_lookup.
  intros i [[label result] runs] Hi. cbn [compose].
  apply expectation_bounds.
  apply lookup_zip_Some in Hi as [Hi _].
  apply lookup_zip_Some in Hi as [_ Hi].
  exact (Forall_lookup_1 _ _ _ _ Hbits Hi).
Qed.

Lemma X16_expectations_bounded_witness :
  let self := HHLAlgorithm.__init__ example_A 1 1 2 [] in
  Forall (Forall (fun b => b = 0 ∨ b = 1)) [[0; 1]; [1]; []]
  ∧ Forall (fun line =>
              match line_expectation line with
              | NaN => line_num_estimates line = 0
              | Fin q => 0 < line_num_estimates line ∧ (-1 <= q <= 1)%Q
              end)
      (fst (HHLAlgorithm.print_results self [[0; 1]; [1]; []] [4; 0; 4])).
Proof.
  intros self.
  assert (Hbits : Forall (Forall (fun b => b = 0 ∨ b = 1)) [[0; 1]; [1]; []])
    by (repeat constructor; auto).
  split; [exact Hbits|].
  exact (X16_expectations_bounded self [[0; 1]; [1]; []] [4; 0; 4] Hbits).
Defined.

(** ** HHLAlgorithm: the sampling without amplification, for every size *)




(** ** HHLAlgorithm: the diffusion operator *)

Lemma flipped_on_each (qs : list Qubit) (q : Qubit) :
  NoDup qs → flipped (on_each cirq_X qs) q = bool_decide (q ∈ qs).
Proof.
  induction 1 as [|q' qs Hnotin _ IH].
  - cbn. now rewrite bool_decide_eq_false_2 by apply not_elem_of_nil.
  - cbn [on_each map flipped is_X_on]. fold (on_each cirq_X qs). rewrite IH.
    destruct (decide (q = q')) as [->|Hne].
    + rewrite bool_decide_eq_true_2 by reflexivity.
      rewrite (bool_decide_eq_false_2 (q' ∈ qs)) by assumption.
      now rewrite bool_decide_eq_true_2 by constructor.
    + rewrite (bool_decide_eq_false_2 (q = q')) by assumption.
      cbn [xorb]. apply bool_decide_ext. rewrite elem_of_cons. tauto.
Qed.

(** X18: the diffusion operator reflects about the all-zero state.  For
    [register_size ≥ 0] the first layer of X gates
    sets every line to 1 exactly when every line was 0, which is when
    the Z gate with [register_size + 1] controls in the middle acts, and
    the second layer restores every line: the X gates of the whole
    operator leave every classical state as it was. *)
Theorem X18_diffusion_reflects_zero (A : Matrix) (C t : R) (register_size : Z)
  (gates : list Gate) (w : World) :
  0 <= register_size →
  let self := HHLAlgorithm.__init__ A C t register_size gates in
  let xs := on_each cirq_X (all_qubits self) in
  let '(d, w') := HHLAlgorithm.diffusion_operator self w in
  contents w' d
  = xs ++ [on (ControlledGate cirq_Z (register_size + 1)) (all_qubits self)] ++ xs
  ∧ (∀ state,
       all_ones (all_qubits self) (apply_X xs state)
       ↔ ∀ q, q ∈ all_qubits self → state q = false)
  ∧ (∀ state q, apply_X (contents w' d) state q = state q).
Proof.
  intros Hrs self xs. rewrite diffusion_operator_eq.
  rewrite contents_set_heap, heap_lookup_snoc.
  pose proof (all_qubits_NoDup A C t register_size gates ltac:(lia)) as Hnd.
  fold self in Hnd.
  assert (Hxs : ∀ q, flipped xs q = bool_decide (q ∈ all_qubits self))
    by (intros q; now apply flipped_on_each).
  split; [reflexivity|]. split.
  - intros state. unfold all_ones, apply_X. split.
    + intros Hall q Hq. specialize (Hall q Hq). rewrite Hxs in Hall.
      rewrite bool_decide_eq_true_2 in Hall by assumption.
      now destruct (state q).
    + intros Hzero q Hq. rewrite Hxs, (Hzero q Hq).
      now rewrite bool_decide_eq_true_2 by assumption.
  - intros state q. unfold apply_X, build_diffusion_operator. cbv zeta.
    fold (all_qubits self). fold xs.
    rewrite !flipped_app. cbn [flipped is_X_on on].
    destruct (flipped xs q), (state q); reflexivity.
Qed.

Lemma X18_diffusion_reflects_zero_witness :
  let self := HHLAlgorithm.__init__ example_A 1 1 2 [] in
  let xs := on_each cirq_X (all_qubits self) in
  0 <= 2
  ∧ let '(d, w') := HHLAlgorithm.diffusion_operator self example_world in
    contents w' d
    = xs ++ [on (ControlledGate cirq_Z (2 + 1)) (all_qubits self)] ++ xs
    ∧ (∀ state,
         all_ones (all_qubits self) (apply_X xs state)
         ↔ ∀ q, q ∈ all_qubits self → state q = false)
    ∧ (∀ state q, apply_X (contents w' d) state q = state q).
Proof.
  intros self xs.
  assert (Hrs : 0 <= 2) by lia.
  split; [exact Hrs|].
  exact (X18_diffusion_reflects_zero example_A 1 1 2 [] example_world Hrs).
Defined.

(** ** HHLAlgorithm: measuring a circuit twice *)

(** X19: [measure_circuit] does not look at what the circuit holds: a
    second call on the circuit it returned appends the three
    measurement operations once more to the same object, which then
    measures the keys 'a' and 'm' twice; no object is created. *)
Theorem X19_measure_circuit_twice (self : HHLAlgorithm.obj)
  (circuit : nat) (old : Circuit) (w : World) :
  heap w !! circuit = Some old →
  let '(c1, w1) := HHLAlgorithm.measure_circuit self circuit w in
  let '(c2, w2) := HHLAlgorithm.measure_circuit self c1 w1 in
  c2 = circuit
  ∧ contents w2 c2 = old ++ measurement_ops self ++ measurement_ops self
  ∧ length (List.filter is_measurement (contents w2 c2))
    = (length (List.filter is_measurement old) + 4)%nat
  ∧ length (heap w2) = length (heap w).
Proof.
  intros Hold. rewrite measure_circuit_eq, measure_circuit_set_heap.
  pose proof (lookup_lt_Some _ _ _ Hold) as Hlt.
  unfold contents, Circuit in *. rewrite Hold.
  change (default [] (Some old)) with old.
  rewrite list_lookup_insert_eq by assumption.
  rewrite list_insert_insert_eq.
  unfold set_heap. cbn [heap].
  rewrite list_lookup_insert_eq by assumption.
  cbn [from_option]. unfold Datatypes.id. rewrite <- app_assoc.
  split; [reflexivity|]. split; [reflexivity|]. split.
  - rewrite List.filter_app, length_app. reflexivity.
  - now rewrite length_insert.
Qed.

Lemma X19_measure_circuit_twice_witness :
  let self := HHLAlgorithm.__init__ example_A 1 1 2 [] in
  let w := set_heap [[on cirq_H [LineQubit 1]]] example_world in
  heap w !! 0%nat = Some [on cirq_H [LineQubit 1]]
  ∧ let '(c1, w1) := HHLAlgorithm.measure_circuit self 0%nat w in
    let '(c2, w2) := HHLAlgorithm.measure_circuit self c1 w1 in
    c2 = 0%nat
    ∧ contents w2 c2
      = [on cirq_H [LineQubit 1]] ++ measurement_ops self ++ measurement_ops self
    ∧ length (List.filter is_measurement (contents w2 c2))
      = (length (List.filter is_measurement [on cirq_H [LineQubit 1]]) + 4)%nat
    ∧ length (heap w2) = length (heap w).
Proof.
  intros self w.
  assert (Hold : heap w !! 0%nat = Some [on cirq_H [LineQubit 1]]) by reflexivity.
  split; [exact Hold|].
  exact (X19_measure_circuit_twice self 0%nat _ w Hold).
Defined.
